(** * TOCSuper: the hand-built DFA tokenizer of [tokpar.py]

    A shallow embedding of [class DFATokenizer] (tokpar.py, lines 10-83)
    and the properties its specification states about it.

    Python's [str] is a sequence of Unicode code points; the tokenizer
    reads it one code point at a time and asks the built-in methods
    [str.isspace], [str.isalpha], [str.isdigit] and [str.lower] about
    them.  Those four methods belong to the Python runtime, not to
    the repository: they are an interface here (class [PyStr]), and
    every general theorem holds for all implementations of it.  What a
    theorem needs to know about the runtime's tables is stated as an
    explicit law ([ascii_faithful], [lower_keeps_content],
    [separators_apart]). *)

From Stdlib Require Import NArith List Bool String Ascii Lia Sorted Permutation.
From stdpp Require Import base option list gmap.
Import ListNotations.

Local Open Scope N_scope.

(** ** Strings and characters *)

(** A character is a code point; a [str] is the sequence of its code
    points, in the order [for ch in text] visits them. *)
Definition char : Type := N.
Definition str : Type := list char.

(** The literal ["'"] of line 42. *)
Definition apostrophe : char := 39.

(** A string literal of the source, read as code points (the literals
    used here are ASCII, so one byte is one code point). *)
Definition py (s : string) : str :=
  List.map N_of_ascii (list_ascii_of_string s).

(** The methods of [str] the tokenizer calls.  [isspace], [isalpha]
    and [isdigit] are called on one-character strings only, [lower] on
    whole token texts (Python's [str.lower] is not defined character
    by character: it may change the length of a string and depends on
    context, as for a final sigma). *)
Class PyStr : Type := {
  isspace : char -> bool;
  isalpha : char -> bool;
  isdigit : char -> bool;
  lower : str -> str
}.

(** ** The data model (lines 5-14) *)

(** [Tok.type] holds one of the strings "WORD", "NUMBER", "SYMBOL". *)
Inductive TokType : Type := WORD | NUMBER | SYMBOL.

(** [@dataclass class Tok].  The tokenizer never assigns to a field of
    a [Tok] after building it, so a token is a value here. *)
Record Tok : Type := mkTok { type : TokType; value : str }.

(** [self.state] holds one of the strings "START", "WORD", "NUMBER";
    the last two are written [IN_WORD] and [IN_NUMBER] to keep them
    apart from the token types of the same spelling. *)
Inductive State : Type := START | IN_WORD | IN_NUMBER.

(** The attributes of a [DFATokenizer] instance: [self.state],
    [self.current] and the contents of the list [self.tokens]. *)
Record DFATokenizer : Type := mkDFATokenizer {
  state : State;
  current : str;
  tokens : list Tok
}.

(** ** The statements of the method bodies, as state transformers *)

(** [self.state = v] *)
Definition set_state (v : State) (self : DFATokenizer) : DFATokenizer :=
  {| state := v; current := current self; tokens := tokens self |}.

(** [self.current += ch] *)
Definition add_current (ch : char) (self : DFATokenizer) : DFATokenizer :=
  {| state := state self; current := current self ++ [ch];
     tokens := tokens self |}.

(** [self.tokens.append(t)] *)
Definition append_token (t : Tok) (self : DFATokenizer) : DFATokenizer :=
  {| state := state self; current := current self;
     tokens := tokens self ++ [t] |}.

(** [__init__] (lines 11-14). *)
Definition init : DFATokenizer :=
  {| state := START; current := []; tokens := [] |}.

(** [reset] (lines 16-19): both scalars are overwritten and the list is
    cleared in place. *)
Definition reset (self : DFATokenizer) : DFATokenizer :=
  {| state := START; current := []; tokens := [] |}.

(** [emit] (lines 21-24): the buffer becomes a token only when it is
    not the empty string. *)
Definition emit (type_ : TokType) (self : DFATokenizer) : DFATokenizer :=
  match current self with
  | [] => self
  | _ :: _ =>
      {| state := state self; current := [];
         tokens := tokens self ++ [mkTok type_ (current self)] |}
  end.

Section Tokenizer.

Context {U : PyStr}.

(** The branch [if self.state == "START"] of the loop body (lines
    29-39).  [continue] ends the iteration with the state as it is. *)
Definition on_start (self : DFATokenizer) (ch : char) : DFATokenizer :=
  if isspace ch then self
  else if isalpha ch then add_current ch (set_state IN_WORD self)
  else if isdigit ch then add_current ch (set_state IN_NUMBER self)
  else append_token (mkTok SYMBOL [ch]) self.

(** The branch [elif self.state == "WORD"] (lines 41-54). *)
Definition on_word (self : DFATokenizer) (ch : char) : DFATokenizer :=
  if isalpha ch || (ch =? apostrophe) then add_current ch self
  else
    let self := set_state START (emit WORD self) in
    if isspace ch then self
    else if isdigit ch then add_current ch (set_state IN_NUMBER self)
    else append_token (mkTok SYMBOL [ch]) self.

(** The branch [elif self.state == "NUMBER"] (lines 56-69). *)
Definition on_number (self : DFATokenizer) (ch : char) : DFATokenizer :=
  if isdigit ch then add_current ch self
  else
    let self := set_state START (emit NUMBER self) in
    if isspace ch then self
    else if isalpha ch then add_current ch (set_state IN_WORD self)
    else append_token (mkTok SYMBOL [ch]) self.

(** One iteration of [for ch in text] (lines 28-69). *)
Definition step (self : DFATokenizer) (ch : char) : DFATokenizer :=
  match state self with
  | START => on_start self ch
  | IN_WORD => on_word self ch
  | IN_NUMBER => on_number self ch
  end.

(** The whole loop, from the state it is entered with. *)
Definition run (self : DFATokenizer) (text : str) : DFATokenizer :=
  fold_left step text self.

(** The statements after the loop (lines 71-74). *)
Definition flush (self : DFATokenizer) : DFATokenizer :=
  match state self with
  | IN_WORD => emit WORD self
  | IN_NUMBER => emit NUMBER self
  | START => self
  end.

(** One iteration of [for t in self.tokens] (lines 78-82), [norm]
    being the list built so far. *)
Definition norm_append (norm : list Tok) (t : Tok) : list Tok :=
  match type t with
  | WORD => norm ++ [mkTok WORD (lower (value t))]
  | _ => norm ++ [t]
  end.

(** Lines 77-82: [norm = []] and the loop over [self.tokens]. *)
Definition normalize (toks : list Tok) : list Tok :=
  fold_left norm_append toks [].

(** [tokenize] (lines 26-83) as a method: the instance it is called on
    goes in, the instance as the call leaves it and the returned list
    [norm] come out. *)
Definition tokenize_method (self : DFATokenizer) (text : str) :
    DFATokenizer * list Tok :=
  let self := reset self in
  let self := run self text in
  let self := flush self in
  (self, normalize (tokens self)).

(** [DFATokenizer().tokenize(text)]: the call on a new instance. *)
Definition tokenize (text : str) : list Tok :=
  snd (tokenize_method init text).

(** The state of the automaton when the scan of [text] ends (before
    the flush), and the tokens emitted by the automaton (before the
    lower-casing pass). *)
Definition scan (text : str) : DFATokenizer := run (reset init) text.
Definition emitted (text : str) : list Tok := tokens (flush (scan text)).

End Tokenizer.

(** ** A table for the ASCII range *)

(** CPython on code points below 128: [isspace] holds of TAB, LF, VT,
    FF, CR, FS, GS, RS, US and SPACE; [isalpha] of the 52 letters;
    [isdigit] of the ten digits; [lower] maps A-Z to a-z.  Outside the
    range the instance below answers "no" and leaves characters alone,
    which is all the scenarios of the specification need. *)
Definition is_ascii (c : char) : Prop := c < 128.
Definition ascii_isspace (c : char) : bool :=
  ((9 <=? c) && (c <=? 13)) || ((28 <=? c) && (c <=? 32)).
Definition ascii_isalpha (c : char) : bool :=
  ((65 <=? c) && (c <=? 90)) || ((97 <=? c) && (c <=? 122)).
Definition ascii_isdigit (c : char) : bool :=
  (48 <=? c) && (c <=? 57).
Definition ascii_lower_char (c : char) : char :=
  if (65 <=? c) && (c <=? 90) then c + 32 else c.
Definition ascii_lower (s : str) : str := List.map ascii_lower_char s.

Definition ascii_table : PyStr :=
  {| isspace := ascii_isspace; isalpha := ascii_isalpha;
     isdigit := ascii_isdigit; lower := ascii_lower |}.

(** ** The instance in the heap *)

(** List objects live in a heap, each under its address.  An instance
    holds its two strings (immutable values) and the address of the
    list [self.tokens], which [__init__] creates and no method ever
    rebinds. *)
Abbreviation Heap := (gmap nat (list Tok)).

Record Obj : Type := mkObj {
  obj_state : State;
  obj_current : str;
  obj_tokens : nat
}.

(** The attributes of [o] as the method body reads them. *)
Definition load (h : Heap) (o : Obj) : DFATokenizer :=
  {| state := obj_state o; current := obj_current o;
     tokens := default [] (h !! obj_tokens o) |}.

(** The attributes as the method body leaves them: [self.tokens] is
    changed in place (append, clear), so its new contents are found
    under the old address. *)
Definition store (h : Heap) (o : Obj) (self : DFATokenizer) : Heap * Obj :=
  (<[obj_tokens o := tokens self]> h,
   {| obj_state := state self; obj_current := current self;
      obj_tokens := obj_tokens o |}).

Section Object.

Context {U : PyStr}.

(** A statement of a method body, carried out on the instance [o]
    where it lies in the heap. *)
Definition in_place (f : DFATokenizer -> DFATokenizer)
    (ho : Heap * Obj) : Heap * Obj :=
  store ho.1 ho.2 (f (load ho.1 ho.2)).

(** [norm.append(...)] of lines 80 and 82, for the list at [norm]. *)
Definition norm_step (norm : nat) (h : Heap) (t : Tok) : Heap :=
  <[norm := norm_append (default [] (h !! norm)) t]> h.

(** [o.tokenize(text)], statement by statement.  [norm = []] (line
    77) makes a new list, at an address not in use; the loop of lines
    78-82 reads [self.tokens] and appends to that list; its address
    is what the caller gets. *)
Definition tokenize_obj (h : Heap) (o : Obj) (text : str) : Heap * Obj * nat :=
  let ho := in_place reset (h, o) in
  let ho := fold_left (fun ho ch => in_place (fun self => step self ch) ho) text ho in
  let '(h, o) := in_place flush ho in
  let norm := fresh (dom h) in
  let h := <[norm := []]> h in
  let h := fold_left (norm_step norm) (default [] (h !! obj_tokens o)) h in
  (h, o, norm).

(** Calls one after the other on the same instance, results dropped. *)
Fixpoint calls (h : Heap) (o : Obj) (inputs : list str) : Heap * Obj :=
  match inputs with
  | [] => (h, o)
  | text :: inputs =>
      let '(h, o, _) := tokenize_obj h o text in calls h o inputs
  end.

End Object.

(** ** Notions the statements below are phrased with *)

(** What the final pass does to one token. *)
Definition norm_tok {U : PyStr} (t : Tok) : Tok :=
  match type t with
  | WORD => mkTok WORD (lower (value t))
  | _ => t
  end.

(** The texts of a token sequence, written one after the other. *)
Definition texts (toks : list Tok) : str := concat (List.map value toks).

(** The shape the data model promises of a token. *)
Definition tok_ok (t : Tok) : Prop :=
  match type t with
  | SYMBOL => length (value t) = 1%nat
  | _ => value t <> []
  end.

(** The buffer is empty exactly in [START], and every token emitted so
    far has the promised shape. *)
Record Inv (self : DFATokenizer) : Prop := {
  inv_start : state self = START -> current self = [];
  inv_run : state self <> START -> current self <> [];
  inv_tokens : Forall tok_ok (tokens self)
}.

(** The characters put into tokens or into the buffer so far. *)
Definition content (self : DFATokenizer) : str :=
  texts (tokens self) ++ current self.

(** The characters of a text that are not whitespace, in order. *)
Definition visible {U : PyStr} (text : str) : str :=
  List.filter (fun c => negb (isspace c)) text.

(** The text a piece of the input has in the result. *)
Definition final_text {U : PyStr} (t : Tok) : str :=
  match type t with
  | WORD => lower (value t)
  | _ => value t
  end.

(** The buffer and the texts of the tokens hold ASCII characters only. *)
Definition all_ascii (self : DFATokenizer) : Prop :=
  Forall is_ascii (current self) /\
  Forall (fun t => Forall is_ascii (value t)) (tokens self).

(** *** Laws of the runtime's tables *)

(** Lower-casing maps no non-empty string to the empty one (CPython
    maps every code point to between one and three code points). *)
Definition lower_keeps_content (U : PyStr) : Prop :=
  forall s : str, s <> [] -> lower s <> [].

(** No whitespace character is a letter, a digit or the apostrophe. *)
Definition separators_apart (U : PyStr) : Prop :=
  forall c : char, isspace c = true ->
    isalpha c = false /\ isdigit c = false /\ c <> apostrophe.

(** The tables agree with CPython's on the ASCII range. *)
Record ascii_faithful (U : PyStr) : Prop := {
  af_isspace : forall c, is_ascii c -> isspace c = ascii_isspace c;
  af_isalpha : forall c, is_ascii c -> isalpha c = ascii_isalpha c;
  af_isdigit : forall c, is_ascii c -> isdigit c = ascii_isdigit c;
  af_lower : forall s, Forall is_ascii s -> lower s = ascii_lower s
}.

(** Closes [Forall is_ascii] over a literal. *)
Ltac ascii_text := vm_compute; repeat constructor.

(** ** What a token may hold *)

Section Classes.

Context {U : PyStr}.

(** A letter first, then letters and apostrophes: what the word
    branches (lines 32-34, 42-43, 65-67) put into the buffer. *)
Definition is_word_text (v : str) : bool :=
  match v with
  | [] => false
  | c :: rest =>
      isalpha c && forallb (fun x => isalpha x || (x =? apostrophe)) rest
  end.

(** Digits, at least one (lines 35-37, 50-52, 57-58). *)
Definition is_number_text (v : str) : bool :=
  match v with
  | [] => false
  | _ :: _ => forallb isdigit v
  end.

(** One character that is no whitespace, letter or digit (lines 38-39,
    53-54, 68-69). *)
Definition is_symbol_text (v : str) : bool :=
  match v with
  | [c] => negb (isspace c) && negb (isalpha c) && negb (isdigit c)
  | _ => false
  end.

Definition classified (t : Tok) : bool :=
  match type t with
  | WORD => is_word_text (value t)
  | NUMBER => is_number_text (value t)
  | SYMBOL => is_symbol_text (value t)
  end.

(** The buffer holds what its state says. *)
Definition buffer_classified (self : DFATokenizer) : bool :=
  match state self with
  | START => true
  | IN_WORD => is_word_text (current self)
  | IN_NUMBER => is_number_text (current self)
  end.

(** A character that ends a run and is dropped: whitespace that is
    neither letter, digit nor apostrophe. *)
Definition is_gap (c : char) : bool :=
  isspace c && negb (isalpha c) && negb (isdigit c)
  && negb (c =? apostrophe).

(** A character that ends a run and stands alone as a SYMBOL. *)
Definition is_mark (c : char) : bool :=
  negb (isspace c) && negb (isalpha c) && negb (isdigit c)
  && negb (c =? apostrophe).

End Classes.

(** The tokens emitted so far, with [pre] before them. *)
Definition prepend (pre : list Tok) (self : DFATokenizer) : DFATokenizer :=
  {| state := state self; current := current self;
     tokens := pre ++ tokens self |}.

(** Tokens waiting or emitted: the emitted ones and the one in the
    buffer. *)
Definition pending (self : DFATokenizer) : nat :=
  (length (tokens self) +
   match state self with START => 0 | _ => 1 end)%nat.

(** A token and a state with every text passed through [ascii_lower]. *)
Definition low_tok (t : Tok) : Tok := mkTok (type t) (ascii_lower (value t)).
Definition low_state (self : DFATokenizer) : DFATokenizer :=
  {| state := state self; current := ascii_lower (current self);
     tokens := List.map low_tok (tokens self) |}.

(** ** The dependency tree (lines 85-135) *)

(** What the code reads of a token of the parser: [tok.i], [tok.text],
    [tok.lemma_], [tok.pos_], [tok.dep_] and [tok.head.i]. *)
Module Spacy.

Record Token : Type := mkToken {
  i : nat;
  text : str;
  lemma_ : str;
  pos_ : str;
  dep_ : str;
  head_i : nat
}.

End Spacy.

Module Dep.

(** [@dataclass class DepNode] (lines 85-91).  [C] is how a child is
    held: as a tree in a value, as an address in the heap. *)
Record DepNodeOf (C : Type) : Type := mkDepNode {
  text : str;
  lemma : str;
  pos : str;
  dep : str;
  children : list C
}.
Arguments mkDepNode {C} _ _ _ _ _.
Arguments text {C} _.
Arguments lemma {C} _.
Arguments pos {C} _.
Arguments dep {C} _.
Arguments children {C} _.

(** A node with its subtrees: a finite object graph without cycles,
    read as a value. *)
#[warnings="-register-all"]
Inductive DepNode : Type := Node (fields : DepNodeOf DepNode).

Definition fields (n : DepNode) : DepNodeOf DepNode :=
  match n with Node r => r end.

(** A node in the heap: its children are addresses (positions in the
    list [nodes] of [build_dep_tree]). *)
Abbreviation DepObj := (DepNodeOf nat).




(** A call returns a value or raises [IndexError] (a list index out of
    range, line 114). *)
Inductive outcome (A : Type) : Type :=
| Returns (a : A)
| IndexError.
Arguments Returns {A} _.
Arguments IndexError {A}.

(** [head_node.children.append(nodes[k])] *)
Definition add_child (o : DepObj) (k : nat) : DepObj :=
  mkDepNode (text o) (lemma o) (pos o) (dep o) (children o ++ [k]).

(** One iteration of the loop of lines 109-115, [k] being the index
    [enumerate] gives. *)
Definition link (nodes : list DepObj) (root : option nat) (k : nat)
    (tok : Spacy.Token) : outcome (list DepObj * option nat) :=
  if Nat.eqb (Spacy.head_i tok) (Spacy.i tok) then Returns (nodes, Some k)
  else
    match nodes !! Spacy.head_i tok with
    | None => IndexError
    | Some head_node =>
        Returns (<[Spacy.head_i tok := add_child head_node k]> nodes, root)
    end.

(** The loop from index [k] on. *)
Fixpoint link_all (k : nat) (doc : list Spacy.Token) (nodes : list DepObj)
    (root : option nat) : outcome (list DepObj * option nat) :=
  match doc with
  | [] => Returns (nodes, root)
  | tok :: doc =>
      match link nodes root k tok with
      | IndexError => IndexError
      | Returns (nodes, root) => link_all (S k) doc nodes root
      end
  end.

(** Line 106: one node per token, each with a list of its own. *)
Definition new_node (t : Spacy.Token) : DepObj :=
  mkDepNode (Spacy.text t) (Spacy.lemma_ t) (Spacy.pos_ t) (Spacy.dep_ t) [].

(** [build_dep_tree] (lines 101-117).  The nodes are objects that
    refer to each other; the result is the heap of nodes and the
    address of the root, if there is one. *)
Definition build_dep_tree (doc : list Spacy.Token) :
    outcome (list DepObj * option nat) :=
  if Nat.eqb (length doc) 0 then Returns ([], None)
  else link_all 0 doc (List.map new_node doc) None.


(** [x in (a, b, ...)] for strings. *)
Definition str_in (x : str) (xs : list str) : bool :=
  existsb (fun y => bool_decide (x = y)) xs.

(** [is_likely_natural_sentence] (lines 119-135). *)
Definition is_likely_natural_sentence (doc : list Spacy.Token) : bool :=
  let roots :=
    List.filter (fun t => bool_decide (Spacy.dep_ t = py "ROOT")) doc in
  if negb (Nat.eqb (length roots) 1) then false
  else
    match roots with
    | [] => false
    | root :: _ =>
        if negb (str_in (Spacy.pos_ root) [py "VERB"; py "AUX"]) then false
        else
          let has_subject :=
            existsb
              (fun t => str_in (Spacy.dep_ t)
                          [py "nsubj"; py "nsubjpass"; py "csubj"])
              doc in
          if negb has_subject then false else true
    end.

(** *** Notions for the statements about the tree *)

(** The token is its own head (line 110). *)
Definition own_head (t : Spacy.Token) : bool :=
  Nat.eqb (Spacy.head_i t) (Spacy.i t).

(** The indices, counted from [k], of the tokens of [doc] whose head is
    [j] and not themselves; in rising order. *)
Fixpoint kids (k : nat) (doc : list Spacy.Token) (j : nat) : list nat :=
  match doc with
  | [] => []
  | t :: doc =>
      (if negb (own_head t) && Nat.eqb (Spacy.head_i t) j then [k] else [])
      ++ kids (S k) doc j
  end.

(** The index, counted from [k], of the last token that is its own
    head. *)
Fixpoint last_own (k : nat) (doc : list Spacy.Token) : option nat :=
  match doc with
  | [] => None
  | t :: doc =>
      match last_own (S k) doc with
      | Some r => Some r
      | None => if own_head t then Some k else None
      end
  end.

(** A node with more children after those it has. *)
Definition add_children (o : DepObj) (ks : list nat) : DepObj :=
  mkDepNode (text o) (lemma o) (pos o) (dep o) (children o ++ ks).

(** The node that stands for token [t] when all of [doc] is linked. *)
Definition linked_node (doc : list Spacy.Token) (j : nat)
    (t : Spacy.Token) : DepObj :=
  mkDepNode (Spacy.text t) (Spacy.lemma_ t) (Spacy.pos_ t) (Spacy.dep_ t)
    (kids 0 doc j).

(** The tests of lines 123, 128 and 131 on one token. *)
Definition is_root (t : Spacy.Token) : bool :=
  bool_decide (Spacy.dep_ t = py "ROOT").
Definition is_verbal (t : Spacy.Token) : bool :=
  str_in (Spacy.pos_ t) [py "VERB"; py "AUX"].
Definition is_subject (t : Spacy.Token) : bool :=
  str_in (Spacy.dep_ t) [py "nsubj"; py "nsubjpass"; py "csubj"].




(** A small document, "The man saw", as the parser would tag it, and
    a tree of two nodes. *)
Definition sample_doc : list Spacy.Token :=
  [Spacy.mkToken 0 (py "The") (py "the") (py "DET") (py "det") 1;
   Spacy.mkToken 1 (py "man") (py "man") (py "NOUN") (py "nsubj") 2;
   Spacy.mkToken 2 (py "saw") (py "see") (py "VERB") (py "ROOT") 2].


End Dep.

(** ** Basic facts *)

Section Facts.

Context {U : PyStr}.

Lemma snoc_not_nil {A : Type} (l : list A) (x : A) : l ++ [x] <> [].
Proof. destruct l; discriminate. Qed.

Lemma emit_current (ty : TokType) (self : DFATokenizer) :
  current (emit ty self) = [].
Proof. unfold emit. destruct (current self) eqn:E; simpl; auto. Qed.

Lemma emit_tokens_nonempty (ty : TokType) (self : DFATokenizer) :
  current self <> [] ->
  tokens (emit ty self) = tokens self ++ [mkTok ty (current self)].
Proof. unfold emit. destruct (current self); simpl; congruence. Qed.

Lemma emit_tokens_ok (ty : TokType) (self : DFATokenizer) :
  ty <> SYMBOL ->
  Forall tok_ok (tokens self) -> Forall tok_ok (tokens (emit ty self)).
Proof.
  intros Hty Hok. unfold emit. destruct (current self) eqn:E; simpl; auto.
  apply Forall_app; split; auto. constructor; [|constructor].
  unfold tok_ok; simpl. destruct ty; congruence.
Qed.

Lemma symbol_ok (ch : char) : tok_ok (mkTok SYMBOL [ch]).
Proof. reflexivity. Qed.

Lemma reset_inv (self : DFATokenizer) : Inv (reset self).
Proof. split; simpl; auto; congruence. Qed.

Lemma add_current_inv (st : State) (self : DFATokenizer) (ch : char) :
  st <> START -> Forall tok_ok (tokens self) ->
  Inv (add_current ch (set_state st self)).
Proof.
  intros Hst Hok. split; simpl; auto.
  - congruence.
  - intros _. apply snoc_not_nil.
Qed.

Lemma append_token_inv (self : DFATokenizer) (t : Tok) :
  state self = START -> current self = [] -> tok_ok t ->
  Forall tok_ok (tokens self) -> Inv (append_token t self).
Proof.
  intros Hst Hcur Ht Hok. split; simpl; auto.
  apply Forall_app; split; auto.
Qed.

Lemma leave_inv (ty : TokType) (self : DFATokenizer) :
  ty <> SYMBOL -> Forall tok_ok (tokens self) ->
  Inv (set_state START (emit ty self)).
Proof.
  intros Hty Hok. split; simpl.
  - intros _. apply emit_current.
  - congruence.
  - apply emit_tokens_ok; assumption.
Qed.

Lemma on_start_inv (self : DFATokenizer) (ch : char) :
  state self = START -> Inv self -> Inv (on_start self ch).
Proof.
  intros Hst HI. pose proof HI as [Hs Hr Ht]. unfold on_start.
  destruct (isspace ch); [assumption|].
  destruct (isalpha ch); [apply add_current_inv; [discriminate | assumption]|].
  destruct (isdigit ch); [apply add_current_inv; [discriminate | assumption]|].
  apply append_token_inv; auto using symbol_ok.
Qed.

Lemma step_inv (self : DFATokenizer) (ch : char) :
  Inv self -> Inv (step self ch).
Proof.
  intros HI. pose proof HI as [Hs Hr Ht]. unfold step.
  destruct (state self) eqn:Est.
  - apply on_start_inv; assumption.
  - unfold on_word.
    destruct (isalpha ch || (ch =? apostrophe)).
    { split; simpl; auto.
      - rewrite Est; discriminate.
      - intros _. apply snoc_not_nil. }
    pose proof (leave_inv WORD self ltac:(discriminate) Ht) as HL.
    destruct (isspace ch); [assumption|].
    destruct (isdigit ch).
    { apply add_current_inv; [discriminate | apply HL]. }
    apply append_token_inv; auto using symbol_ok; apply HL; reflexivity.
  - unfold on_number.
    destruct (isdigit ch).
    { split; simpl; auto.
      - rewrite Est; discriminate.
      - intros _. apply snoc_not_nil. }
    pose proof (leave_inv NUMBER self ltac:(discriminate) Ht) as HL.
    destruct (isspace ch); [assumption|].
    destruct (isalpha ch).
    { apply add_current_inv; [discriminate | apply HL]. }
    apply append_token_inv; auto using symbol_ok; apply HL; reflexivity.
Qed.

Lemma run_inv (text : str) (self : DFATokenizer) :
  Inv self -> Inv (run self text).
Proof.
  revert self. induction text as [|ch text IH]; intros self HI; simpl.
  - assumption.
  - apply IH, step_inv, HI.
Qed.

Lemma scan_inv (text : str) : Inv (scan text).
Proof. apply run_inv, reset_inv. Qed.

Lemma run_app (self : DFATokenizer) (pre rest : str) :
  run self (pre ++ rest) = run (run self pre) rest.
Proof. unfold run. apply fold_left_app. Qed.

Lemma flush_tokens_ok (self : DFATokenizer) :
  Inv self -> Forall tok_ok (tokens (flush self)).
Proof.
  intros [_ _ Ht]. unfold flush.
  destruct (state self); auto; apply emit_tokens_ok; auto; discriminate.
Qed.

(** The loop of lines 77-82 is a map. *)
Lemma fold_norm_append (toks acc : list Tok) :
  fold_left norm_append toks acc = acc ++ List.map norm_tok toks.
Proof.
  revert acc. induction toks as [|t toks IH]; intros acc; simpl.
  - now rewrite app_nil_r.
  - rewrite IH. unfold norm_append, norm_tok.
    destruct (type t); now rewrite <- app_assoc.
Qed.

Lemma normalize_map (toks : list Tok) :
  normalize toks = List.map norm_tok toks.
Proof. unfold normalize. now rewrite fold_norm_append. Qed.

Lemma tokenize_emitted (text : str) :
  tokenize text = List.map norm_tok (emitted text).
Proof.
  unfold tokenize, tokenize_method, emitted, scan. simpl.
  apply normalize_map.
Qed.

End Facts.

(** ** The specification's claims about the automaton *)

Section Automaton.

Context {U : PyStr}.

Lemma run_blank (text : str) (self : DFATokenizer) :
  state self = START -> forallb isspace text = true -> run self text = self.
Proof.
  intros Hst. induction text as [|ch text IH]; simpl; intros Hb.
  - reflexivity.
  - apply andb_prop in Hb as [Hch Hb].
    unfold step. rewrite Hst. unfold on_start. rewrite Hch. auto.
Qed.

(** C1: [tokenize] is total: on every input string, from every state
    the instance may be in, the call returns an instance and a token
    sequence; on the empty string and on a string of whitespace
    characters only, the returned sequence is empty. *)
Theorem tokenize_total_blank (text : str) :
  (forall self : DFATokenizer, exists (self' : DFATokenizer) (toks : list Tok),
      tokenize_method self text = (self', toks)) /\
  (exists toks : list Tok, tokenize text = toks) /\
  (text = [] -> tokenize text = []) /\
  (forallb isspace text = true -> tokenize text = []).
Proof.
  split; [|split; [|split]].
  - intros self. unfold tokenize_method. eauto.
  - eauto.
  - intros ->. reflexivity.
  - intros Hb. unfold tokenize, tokenize_method. simpl.
    rewrite run_blank by (simpl; auto). reflexivity.
Qed.

(** What the START dispatch does with a character, case by case: it
    touches the token list only to add the character as a SYMBOL, and
    the buffer only to add the character to it. *)
Lemma on_start_effect (self : DFATokenizer) (ch : char) :
  on_start self ch =
    if isspace ch then self
    else if isalpha ch then
      mkDFATokenizer IN_WORD (current self ++ [ch]) (tokens self)
    else if isdigit ch then
      mkDFATokenizer IN_NUMBER (current self ++ [ch]) (tokens self)
    else mkDFATokenizer (state self) (current self)
           (tokens self ++ [mkTok SYMBOL [ch]]).
Proof.
  unfold on_start.
  destruct (isspace ch), (isalpha ch), (isdigit ch); reflexivity.
Qed.

Lemma on_word_exit (self : DFATokenizer) (ch : char) :
  isalpha ch || (ch =? apostrophe) = false ->
  on_word self ch = on_start (set_state START (emit WORD self)) ch.
Proof.
  intros Hc. unfold on_word, on_start. rewrite Hc.
  apply orb_false_elim in Hc as [Ha _]. rewrite Ha. reflexivity.
Qed.

Lemma on_number_exit (self : DFATokenizer) (ch : char) :
  isdigit ch = false ->
  on_number self ch = on_start (set_state START (emit NUMBER self)) ch.
Proof.
  intros Hd. unfold on_number, on_start. rewrite Hd. reflexivity.
Qed.

(** C2: a character that ends a word or a number run is handled, in
    the one step taken on it, as: emit the buffered token, go to START,
    dispatch that same character as START does.  The dispatch adds at
    most the character itself as a SYMBOL, never a second buffered
    token, and the scan goes on with the character after it. *)
Theorem reprocess_rule (pre : str) (ch : char) (rest : str) :
  let self := scan pre in
  let left ty := set_state START (emit ty self) in
  (state self = IN_WORD -> isalpha ch || (ch =? apostrophe) = false ->
     step self ch = on_start (left WORD) ch /\
     tokens (left WORD) = tokens self ++ [mkTok WORD (current self)] /\
     scan (pre ++ ch :: rest) = run (on_start (left WORD) ch) rest) /\
  (state self = IN_NUMBER -> isdigit ch = false ->
     step self ch = on_start (left NUMBER) ch /\
     tokens (left NUMBER) = tokens self ++ [mkTok NUMBER (current self)] /\
     scan (pre ++ ch :: rest) = run (on_start (left NUMBER) ch) rest) /\
  (forall ty,
     state (left ty) = START /\ current (left ty) = [] /\
     (tokens (on_start (left ty) ch) = tokens (left ty) \/
      tokens (on_start (left ty) ch) =
        tokens (left ty) ++ [mkTok SYMBOL [ch]]) /\
     (current (on_start (left ty) ch) = [] \/
      current (on_start (left ty) ch) = [ch])).
Proof.
  intros self left.
  pose proof (scan_inv pre) as HI. fold self in HI.
  assert (Hscan : scan (pre ++ ch :: rest) = run (step self ch) rest).
  { unfold scan. rewrite run_app. reflexivity. }
  split; [|split].
  - intros Hst Hc.
    assert (Hstep : step self ch = on_start (left WORD) ch).
    { unfold step. rewrite Hst. apply on_word_exit, Hc. }
    split; [exact Hstep|]. split.
    + unfold left; simpl. apply emit_tokens_nonempty.
      apply (inv_run _ HI). rewrite Hst. discriminate.
    + rewrite Hscan, Hstep. reflexivity.
  - intros Hst Hd.
    assert (Hstep : step self ch = on_start (left NUMBER) ch).
    { unfold step. rewrite Hst. apply on_number_exit, Hd. }
    split; [exact Hstep|]. split.
    + unfold left; simpl. apply emit_tokens_nonempty.
      apply (inv_run _ HI). rewrite Hst. discriminate.
    + rewrite Hscan, Hstep. reflexivity.
  - intros ty.
    assert (Hcur : current (left ty) = []) by apply emit_current.
    split; [reflexivity|]. split; [exact Hcur|].
    rewrite on_start_effect, Hcur.
    destruct (isspace ch), (isalpha ch), (isdigit ch); simpl; auto.
Qed.

(** C3: in the sequence [tokenize] returns, a WORD or NUMBER token has
    a non-empty text and a SYMBOL token a text of exactly one
    character (lower-casing, the last thing done to a word, empties
    no string). *)
Theorem tokens_well_shaped (Hlow : lower_keeps_content U)
    (text : str) (t : Tok) :
  In t (tokenize text) ->
  (type t = WORD \/ type t = NUMBER -> value t <> []) /\
  (type t = SYMBOL -> length (value t) = 1%nat).
Proof.
  rewrite tokenize_emitted. intros Hin.
  apply in_map_iff in Hin as (t0 & <- & Hin0).
  pose proof (flush_tokens_ok _ (scan_inv text)) as Hok.
  rewrite Forall_forall in Hok. apply list_elem_of_In in Hin0.
  specialize (Hok t0 Hin0).
  unfold tok_ok in Hok. unfold norm_tok.
  destruct t0 as [ty v]; simpl in *. destruct ty; simpl.
  - split; [intros _; apply Hlow, Hok | discriminate].
  - split; [intros _; exact Hok | discriminate].
  - split; [intros [?|?]; discriminate | intros _; exact Hok].
Qed.

(** C4: when the scan ends in a word or a number run the buffer is
    not empty and becomes one last WORD or NUMBER token of the result;
    when it ends in START the buffer is empty and the result is the
    tokens emitted during the scan, nothing added. *)
Theorem end_of_input_flush (text : str) :
  let self := scan text in
  (state self = IN_WORD ->
     current self <> [] /\
     emitted text = tokens self ++ [mkTok WORD (current self)] /\
     tokenize text =
       List.map norm_tok (tokens self) ++
       [mkTok WORD (lower (current self))]) /\
  (state self = IN_NUMBER ->
     current self <> [] /\
     emitted text = tokens self ++ [mkTok NUMBER (current self)] /\
     tokenize text =
       List.map norm_tok (tokens self) ++ [mkTok NUMBER (current self)]) /\
  (state self = START ->
     current self = [] /\
     emitted text = tokens self /\
     tokenize text = List.map norm_tok (tokens self)).
Proof.
  intros self. pose proof (scan_inv text) as HI. fold self in HI.
  rewrite tokenize_emitted. unfold emitted. fold self. unfold flush.
  split; [|split]; intros Hst; rewrite Hst.
  - assert (Hne : current self <> [])
      by (apply (inv_run _ HI); rewrite Hst; discriminate).
    rewrite emit_tokens_nonempty by exact Hne.
    rewrite map_app. auto.
  - assert (Hne : current self <> [])
      by (apply (inv_run _ HI); rewrite Hst; discriminate).
    rewrite emit_tokens_nonempty by exact Hne.
    rewrite map_app. auto.
  - split; [apply (inv_start _ HI Hst) | auto].
Qed.

(** C5: the returned sequence is the emitted one after a single pass
    over it, token by token and in order: a WORD token is replaced by
    a WORD token with the lower-cased text, a NUMBER or SYMBOL token is
    kept as it is. *)
Theorem final_pass (text : str) :
  tokenize text = List.map norm_tok (emitted text) /\
  length (tokenize text) = length (emitted text) /\
  (forall (i : nat) (t : Tok), nth_error (emitted text) i = Some t ->
     exists t' : Tok,
       nth_error (tokenize text) i = Some t' /\
       type t' = type t /\
       (type t = WORD -> value t' = lower (value t)) /\
       (type t <> WORD -> t' = t)).
Proof.
  rewrite tokenize_emitted. split; [reflexivity|]. split.
  - apply length_map.
  - intros i t Hi. exists (norm_tok t). split.
    + now apply map_nth_error.
    + unfold norm_tok. destruct t as [ty v]; simpl.
      destruct ty; simpl; repeat split; auto; congruence.
Qed.

End Automaton.

(** ** Scenarios over ASCII text *)

Lemma ascii_lower_content (s : str) : s <> [] -> ascii_lower s <> [].
Proof. destruct s; [congruence | discriminate]. Qed.

Lemma ascii_table_keeps_content : lower_keeps_content ascii_table.
Proof. intros s. apply ascii_lower_content. Qed.

Lemma ascii_table_faithful : ascii_faithful ascii_table.
Proof. split; reflexivity. Qed.

Lemma ascii_table_apart : separators_apart ascii_table.
Proof.
  intros c. simpl.
  unfold ascii_isspace, ascii_isalpha, ascii_isdigit, apostrophe.
  intros H. repeat split; [| |intros ->; discriminate].
  all: destruct (9 <=? c) eqn:?, (c <=? 13) eqn:?, (28 <=? c) eqn:?,
         (c <=? 32) eqn:?; simpl in H; try discriminate;
       repeat match goal with
              | E : (_ <=? _) = true |- _ => apply N.leb_le in E
              | E : (_ <=? _) = false |- _ => apply N.leb_gt in E
              end;
       rewrite ?andb_false_iff, ?orb_false_iff, ?andb_false_iff,
         ?N.leb_gt, ?N.leb_le; lia.
Qed.

Section Ascii.

Context {U : PyStr} (HU : ascii_faithful U).

Lemma step_ascii (self : DFATokenizer) (ch : char) :
  is_ascii ch -> @step U self ch = @step ascii_table self ch.
Proof.
  intros Hch. unfold step, on_start, on_word, on_number.
  rewrite (af_isspace U HU ch Hch), (af_isalpha U HU ch Hch),
    (af_isdigit U HU ch Hch).
  reflexivity.
Qed.

Lemma run_ascii (text : str) (self : DFATokenizer) :
  Forall is_ascii text -> @run U self text = @run ascii_table self text.
Proof.
  intros Htext. revert self.
  induction Htext as [|ch text Hch _ IH]; intros self; simpl.
  - reflexivity.
  - rewrite step_ascii by exact Hch. apply IH.
Qed.

Lemma emit_all_ascii (ty : TokType) (self : DFATokenizer) :
  all_ascii self -> all_ascii (emit ty self).
Proof.
  intros [Hc Ht]. unfold emit. destruct (current self) eqn:E.
  - split; [rewrite E; constructor | exact Ht].
  - split; simpl; [constructor|].
    apply Forall_app; split; [exact Ht|]. constructor; [exact Hc | constructor].
Qed.

Lemma add_current_all_ascii (st : State) (self : DFATokenizer) (ch : char) :
  is_ascii ch -> all_ascii self ->
  all_ascii (add_current ch (set_state st self)).
Proof.
  intros Hch [Hc Ht]. split; simpl; [|exact Ht].
  apply Forall_app; split; [exact Hc | constructor; [exact Hch | constructor]].
Qed.

Lemma append_symbol_all_ascii (self : DFATokenizer) (ch : char) :
  is_ascii ch -> all_ascii self ->
  all_ascii (append_token (mkTok SYMBOL [ch]) self).
Proof.
  intros Hch [Hc Ht]. split; simpl; [exact Hc|].
  apply Forall_app; split; [exact Ht|].
  constructor; [|constructor]. simpl. constructor; [exact Hch | constructor].
Qed.

Lemma set_state_id (self : DFATokenizer) : set_state (state self) self = self.
Proof. destruct self; reflexivity. Qed.

Lemma step_all_ascii (self : DFATokenizer) (ch : char) :
  is_ascii ch -> all_ascii self -> all_ascii (@step ascii_table self ch).
Proof.
  intros Hch Hall. unfold step, on_start, on_word, on_number.
  pose proof (emit_all_ascii WORD self Hall) as Hw.
  pose proof (emit_all_ascii NUMBER self Hall) as Hn.
  destruct (state self);
    repeat match goal with
           | |- context [if ?b then _ else _] => destruct b
           end;
    auto using add_current_all_ascii, append_symbol_all_ascii.
  - rewrite <- (set_state_id self) at 1.
    now apply add_current_all_ascii.
  - rewrite <- (set_state_id self) at 1.
    now apply add_current_all_ascii.
Qed.

Lemma run_all_ascii (text : str) (self : DFATokenizer) :
  Forall is_ascii text -> all_ascii self ->
  all_ascii (@run ascii_table self text).
Proof.
  intros Htext. revert self.
  induction Htext as [|ch text Hch _ IH]; intros self Hall; simpl.
  - exact Hall.
  - apply IH, step_all_ascii; assumption.
Qed.

(** On ASCII text, every table faithful to CPython's on the ASCII range
    gives the tokens that the ASCII table gives. *)
Lemma tokenize_ascii (text : str) :
  Forall is_ascii text -> @tokenize U text = @tokenize ascii_table text.
Proof.
  intros Htext. rewrite !tokenize_emitted. unfold emitted, scan.
  rewrite run_ascii by exact Htext.
  assert (Hall : all_ascii (flush (@run ascii_table (reset init) text))).
  { assert (H0 : all_ascii (@run ascii_table (reset init) text)).
    { apply run_all_ascii; [exact Htext | split; constructor]. }
    unfold flush. destruct (state _); auto using emit_all_ascii. }
  destruct Hall as [_ Htoks].
  induction Htoks as [|t toks Ht _ IH]; simpl.
  - reflexivity.
  - f_equal; [|exact IH].
    unfold norm_tok. destruct (type t); auto.
    f_equal. apply (af_lower U HU), Ht.
Qed.

End Ascii.

(** C7: on the text "x1 + x2 = 10" [tokenize] returns, in this order,
    WORD x, NUMBER 1, SYMBOL +, WORD x, NUMBER 2, SYMBOL =, NUMBER 10. *)
Theorem scenario_equation {U : PyStr} (HU : ascii_faithful U) :
  tokenize (py "x1 + x2 = 10") =
    [mkTok WORD (py "x"); mkTok NUMBER (py "1"); mkTok SYMBOL (py "+");
     mkTok WORD (py "x"); mkTok NUMBER (py "2"); mkTok SYMBOL (py "=");
     mkTok NUMBER (py "10")].
Proof.
  rewrite (tokenize_ascii HU) by ascii_text.
  vm_compute. reflexivity.
Qed.

(** C6: an apostrophe read in a word run is appended to the buffer and
    the run goes on; an apostrophe read in START is none of
    whitespace, letter, digit and is emitted as a SYMBOL of its own. *)
Theorem apostrophe_rule {U : PyStr} (HU : ascii_faithful U) :
  (forall self : DFATokenizer, state self = IN_WORD ->
     step self apostrophe = add_current apostrophe self /\
     state (step self apostrophe) = IN_WORD) /\
  (forall self : DFATokenizer, state self = START ->
     step self apostrophe =
       append_token (mkTok SYMBOL [apostrophe]) self /\
     state (step self apostrophe) = START) /\
  tokenize (py "don't stop") =
    [mkTok WORD (py "don't"); mkTok WORD (py "stop")] /\
  tokenize (py "'tis") = [mkTok SYMBOL (py "'"); mkTok WORD (py "tis")].
Proof.
  split; [|split; [|split]].
  - intros self Hst. unfold step. rewrite Hst. unfold on_word.
    rewrite N.eqb_refl, orb_true_r. split; [reflexivity | exact Hst].
  - intros self Hst. unfold step. rewrite Hst. unfold on_start.
    assert (Ha : is_ascii apostrophe) by reflexivity.
    rewrite (af_isspace U HU _ Ha), (af_isalpha U HU _ Ha),
      (af_isdigit U HU _ Ha).
    split; [reflexivity | exact Hst].
  - rewrite (tokenize_ascii HU) by ascii_text. vm_compute. reflexivity.
  - rewrite (tokenize_ascii HU) by ascii_text. vm_compute. reflexivity.
Qed.

(** C9: tokenization cannot be undone.  Writing the token texts of
    "a b" one after the other and tokenizing that gives another
    sequence than tokenizing "a b"; and strings that differ only in
    whitespace, or only in letter case, have the same tokens, so no
    function of the tokens gives every input back. *)
Theorem not_round_trip {U : PyStr} (HU : ascii_faithful U) :
  (exists s : str, tokenize (texts (tokenize s)) <> tokenize s) /\
  (exists s1 s2 : str,
     s1 <> s2 /\ List.filter (fun c => negb (isspace c)) s1 =
                 List.filter (fun c => negb (isspace c)) s2 /\
     tokenize s1 = tokenize s2) /\
  (exists s1 s2 : str, s1 <> s2 /\ lower s1 = lower s2 /\
     tokenize s1 = tokenize s2) /\
  (forall rebuild : list Tok -> str, exists s : str,
     rebuild (tokenize s) <> s).
Proof.
  assert (Hab : tokenize (py "a b") = [mkTok WORD (py "a"); mkTok WORD (py "b")]).
  { rewrite (tokenize_ascii HU) by ascii_text. vm_compute. reflexivity. }
  assert (Ha2b : tokenize (py "a  b") = [mkTok WORD (py "a"); mkTok WORD (py "b")]).
  { rewrite (tokenize_ascii HU) by ascii_text. vm_compute. reflexivity. }
  assert (Hup : tokenize (py "A") = [mkTok WORD (py "a")]).
  { rewrite (tokenize_ascii HU) by ascii_text. vm_compute. reflexivity. }
  assert (Hlo : tokenize (py "a") = [mkTok WORD (py "a")]).
  { rewrite (tokenize_ascii HU) by ascii_text. vm_compute. reflexivity. }
  split; [|split; [|split]].
  - exists (py "a b"). rewrite Hab.
    change (texts _) with (py "ab").
    rewrite (tokenize_ascii HU) by ascii_text. vm_compute. discriminate.
  - exists (py "a b"), (py "a  b"). split; [discriminate|]. split.
    + assert (Hsp : isspace 32 = true)
        by (rewrite (af_isspace U HU) by reflexivity; reflexivity).
      assert (Hna : isspace 97 = false)
        by (rewrite (af_isspace U HU) by reflexivity; reflexivity).
      assert (Hnb : isspace 98 = false)
        by (rewrite (af_isspace U HU) by reflexivity; reflexivity).
      change (py "a b") with [97; 32; 98].
      change (py "a  b") with [97; 32; 32; 98].
      simpl. rewrite Hsp, Hna, Hnb. reflexivity.
    + now rewrite Hab, Ha2b.
  - exists (py "A"), (py "a"). split; [discriminate|]. split.
    + rewrite !(af_lower U HU) by ascii_text. reflexivity.
    + now rewrite Hup, Hlo.
  - intros rebuild.
    destruct (decide (rebuild [mkTok WORD (py "a")] = py "a")) as [E|E].
    + exists (py "A"). rewrite Hup, E. discriminate.
    + exists (py "a"). rewrite Hlo. exact E.
Qed.

(** ** Where the characters of the input go *)

Section Content.

Context {U : PyStr} (Hsep : separators_apart U).

Lemma texts_snoc (toks : list Tok) (t : Tok) :
  texts (toks ++ [t]) = texts toks ++ value t.
Proof.
  unfold texts. rewrite map_app, concat_app. simpl. now rewrite app_nil_r.
Qed.

Lemma emit_content (ty : TokType) (self : DFATokenizer) :
  content (emit ty self) = content self.
Proof.
  unfold emit, content. destruct (current self) eqn:E; simpl.
  - now rewrite E.
  - now rewrite texts_snoc, app_nil_r.
Qed.

Lemma add_current_content (st : State) (self : DFATokenizer) (ch : char) :
  content (add_current ch (set_state st self)) = content self ++ [ch].
Proof. unfold content; simpl. now rewrite app_assoc. Qed.

Lemma append_symbol_content (self : DFATokenizer) (ch : char) :
  current self = [] ->
  content (append_token (mkTok SYMBOL [ch]) self) = content self ++ [ch].
Proof.
  intros Hc. unfold content; simpl. now rewrite texts_snoc, Hc, !app_nil_r.
Qed.

Lemma on_start_content (self : DFATokenizer) (ch : char) :
  current self = [] ->
  content (on_start self ch) = content self ++ visible [ch].
Proof.
  intros Hc. unfold on_start, visible. simpl.
  destruct (isspace ch); simpl; [now rewrite app_nil_r|].
  destruct (isalpha ch); [apply add_current_content|].
  destruct (isdigit ch); [apply add_current_content|].
  now apply append_symbol_content.
Qed.

Lemma step_content (self : DFATokenizer) (ch : char) :
  Inv self -> content (step self ch) = content self ++ visible [ch].
Proof.
  intros HI. unfold step. destruct (state self) eqn:Est.
  - apply on_start_content, (inv_start _ HI Est).
  - destruct (isalpha ch || (ch =? apostrophe)) eqn:Ec.
    + unfold on_word. rewrite Ec.
      assert (Hns : isspace ch = false).
      { destruct (isspace ch) eqn:Es; [|reflexivity].
        destruct (Hsep ch Es) as (Ha & _ & Hap).
        rewrite Ha in Ec. simpl in Ec. apply N.eqb_eq in Ec. contradiction. }
      unfold visible; simpl. rewrite Hns; simpl.
      rewrite <- (set_state_id self) at 1. apply add_current_content.
    + rewrite on_word_exit by exact Ec.
      rewrite on_start_content by apply emit_current.
      unfold content at 1; simpl. fold (content (emit WORD self)).
      now rewrite emit_content.
  - destruct (isdigit ch) eqn:Ed.
    + unfold on_number. rewrite Ed.
      assert (Hns : isspace ch = false).
      { destruct (isspace ch) eqn:Es; [|reflexivity].
        destruct (Hsep ch Es) as (_ & Hd & _). congruence. }
      unfold visible; simpl. rewrite Hns; simpl.
      rewrite <- (set_state_id self) at 1. apply add_current_content.
    + rewrite on_number_exit by exact Ed.
      rewrite on_start_content by apply emit_current.
      unfold content at 1; simpl. fold (content (emit NUMBER self)).
      now rewrite emit_content.
Qed.

Lemma visible_app (a b : str) : visible (a ++ b) = visible a ++ visible b.
Proof. unfold visible. apply List.filter_app. Qed.

Lemma run_content (text : str) (self : DFATokenizer) :
  Inv self -> content (run self text) = content self ++ visible text.
Proof.
  revert self. induction text as [|ch text IH]; intros self HI.
  - unfold visible; simpl. now rewrite app_nil_r.
  - change (run self (ch :: text)) with (run (step self ch) text).
    rewrite IH by now apply step_inv.
    rewrite step_content by exact HI.
    change (ch :: text) with ([ch] ++ text).
    now rewrite visible_app, app_assoc.
Qed.

Lemma flush_content (self : DFATokenizer) :
  Inv self -> texts (tokens (flush self)) = content self.
Proof.
  intros HI. unfold flush. destruct (state self) eqn:Est.
  - unfold content. rewrite (inv_start _ HI Est). now rewrite app_nil_r.
  - rewrite <- (emit_content WORD). unfold content.
    now rewrite emit_current, app_nil_r.
  - rewrite <- (emit_content NUMBER). unfold content.
    now rewrite emit_current, app_nil_r.
Qed.

Lemma texts_norm (toks : list Tok) :
  texts (List.map norm_tok toks) = concat (List.map final_text toks).
Proof.
  unfold texts. rewrite List.map_map. f_equal. apply List.map_ext.
  intros [ty v]. unfold norm_tok, final_text. destruct ty; reflexivity.
Qed.

(** C10: the tokens the automaton emits cut the non-whitespace
    characters of the input, in their order, into consecutive pieces,
    no character left out and none taken twice; the result has one
    token per piece, with the piece as its text, lower-cased when the
    piece is a word.  So the texts of the result, written one after
    the other, are the non-whitespace characters of the input with
    the words lower-cased; where lower-casing works character by
    character, every character of that string is the corresponding
    input character or its lower-case form. *)
Theorem every_character_once (text : str) :
  texts (emitted text) = visible text /\
  List.map type (tokenize text) = List.map type (emitted text) /\
  List.map value (tokenize text) = List.map final_text (emitted text) /\
  texts (tokenize text) = concat (List.map final_text (emitted text)) /\
  (forall low : char -> char,
     (forall s : str, lower s = List.map low s) ->
     Forall2 (fun c' c => c' = c \/ c' = low c)
       (texts (tokenize text)) (visible text)).
Proof.
  assert (Hpieces : texts (emitted text) = visible text).
  { unfold emitted. rewrite flush_content by apply scan_inv.
    unfold scan. rewrite run_content by apply reset_inv. reflexivity. }
  rewrite tokenize_emitted.
  split; [exact Hpieces|]. split; [|split; [|split]].
  - rewrite List.map_map. apply List.map_ext.
    intros [ty v]. unfold norm_tok. destruct ty; reflexivity.
  - rewrite List.map_map. apply List.map_ext.
    intros [ty v]. unfold norm_tok, final_text. destruct ty; reflexivity.
  - apply texts_norm.
  - intros low Hlow. rewrite <- Hpieces, texts_norm. unfold texts.
    clear Hpieces. induction (emitted text) as [|t toks IH]; simpl.
    + constructor.
    + apply Forall2_app; [|exact IH].
      unfold final_text. destruct (type t).
      * rewrite Hlow. induction (value t); simpl; constructor; auto.
      * induction (value t); simpl; constructor; auto.
      * induction (value t); simpl; constructor; auto.
Qed.

End Content.

(** ** The instance as an object: repeated calls *)

Section Calls.

Context {U : PyStr}.

(** [reset] (line 27) leaves nothing of the state the call found. *)
Lemma tokenize_method_reset (self : DFATokenizer) (text : str) :
  tokenize_method self text = tokenize_method init text.
Proof. reflexivity. Qed.

Lemma load_store (h : Heap) (o : Obj) (self : DFATokenizer) :
  load (store h o self).1 (store h o self).2 = self.
Proof.
  unfold load, store; simpl. rewrite lookup_insert_eq. now destruct self.
Qed.

Lemma store_store (h : Heap) (o : Obj) (self self' : DFATokenizer) :
  store (store h o self).1 (store h o self).2 self' = store h o self'.
Proof. unfold store; simpl. now rewrite insert_insert_eq. Qed.

Lemma in_place_store (f : DFATokenizer -> DFATokenizer)
    (h : Heap) (o : Obj) (self : DFATokenizer) :
  in_place f (store h o self) = store h o (f self).
Proof. unfold in_place. now rewrite load_store, store_store. Qed.

Lemma run_in_place (text : str) (h : Heap) (o : Obj) (self : DFATokenizer) :
  fold_left (fun ho ch => in_place (fun self => step self ch) ho) text
    (store h o self) = store h o (run self text).
Proof.
  revert self. induction text as [|ch text IH]; intros self; simpl.
  - reflexivity.
  - rewrite in_place_store. apply IH.
Qed.

Lemma norm_loop (toks : list Tok) (norm : nat) (acc : list Tok) (h : Heap) :
  fold_left (norm_step norm) toks (<[norm := acc]> h) =
    <[norm := fold_left norm_append toks acc]> h.
Proof.
  revert acc. induction toks as [|t toks IH]; intros acc; cbn [fold_left].
  - reflexivity.
  - replace (norm_step norm (<[norm := acc]> h) t)
      with (<[norm := norm_append acc t]> h).
    + apply IH.
    + unfold norm_step. now rewrite lookup_insert_eq, insert_insert_eq.
Qed.

(** The call in one piece: the tokens of the scan are left in
    [self.tokens], under its old address, and the result is a list at
    a new address. *)
Lemma tokenize_obj_eq (h : Heap) (o : Obj) (text : str) :
  let self := fst (tokenize_method init text) in
  let h1 := <[obj_tokens o := tokens self]> h in
  let r := fresh (dom h1) in
  tokenize_obj h o text =
    (<[r := tokenize text]> h1,
     mkObj (state self) (current self) (obj_tokens o), r).
Proof.
  intros self h1 r. unfold tokenize_obj.
  change (in_place reset (h, o)) with (store h o init).
  rewrite run_in_place, in_place_store.
  change (flush (run init text)) with self.
  unfold store. fold h1. fold r.
  assert (Hr : r <> obj_tokens o).
  { intros Er. apply (is_fresh (dom h1)). fold r. rewrite Er. unfold h1.
    rewrite dom_insert_L. set_solver. }
  cbn [obj_tokens]. rewrite lookup_insert_ne by exact Hr.
  assert (Hself : h1 !! obj_tokens o = Some (tokens self))
    by apply lookup_insert_eq.
  rewrite Hself. cbn [default from_option id].
  rewrite norm_loop. reflexivity.
Qed.

Lemma tokenize_obj_frame (h : Heap) (o : Obj) (text : str) :
  let '(h', o', r) := tokenize_obj h o text in
  obj_tokens o' = obj_tokens o /\
  r <> obj_tokens o /\
  (r ∉ dom h) /\
  h' !! r = Some (tokenize text) /\
  (forall a : nat, a <> obj_tokens o -> a ∈ dom h ->
     a ∈ dom h' /\ h' !! a = h !! a) /\
  load h' o' = fst (tokenize_method init text).
Proof.
  pose proof (tokenize_obj_eq h o text) as E. cbv zeta in E. rewrite E.
  set (self := fst (tokenize_method init text)).
  set (h1 := <[obj_tokens o := tokens self]> h).
  pose proof (is_fresh (dom h1)) as Hfresh.
  set (r := fresh (dom h1)) in *.
  assert (Hr : r <> obj_tokens o).
  { intros Er. apply Hfresh. rewrite Er. unfold h1.
    rewrite dom_insert_L. set_solver. }
  assert (Hrh : r ∉ dom h).
  { intros Hin. apply Hfresh. unfold h1. rewrite dom_insert_L. set_solver. }
  split; [reflexivity|]. split; [exact Hr|]. split; [exact Hrh|].
  split; [|split].
  - now rewrite lookup_insert_eq.
  - intros a Ha Hin. split.
    + rewrite dom_insert_L. unfold h1. rewrite dom_insert_L. set_solver.
    + assert (a <> r) by (intros ->; contradiction).
      rewrite lookup_insert_ne by congruence.
      unfold h1. now rewrite lookup_insert_ne by congruence.
  - unfold load; simpl. rewrite lookup_insert_ne by exact Hr.
    unfold h1. rewrite lookup_insert_eq. simpl. now destruct self.
Qed.

Lemma calls_frame (inputs : list str) (h : Heap) (o : Obj) :
  let '(h', o') := calls h o inputs in
  obj_tokens o' = obj_tokens o /\
  (forall a : nat, a <> obj_tokens o -> a ∈ dom h ->
     a ∈ dom h' /\ h' !! a = h !! a).
Proof.
  revert h o. induction inputs as [|text inputs IH]; intros h o.
  - simpl. auto.
  - pose proof (tokenize_obj_frame h o text) as Hone.
    change (calls h o (text :: inputs))
      with (let '(h, o, _) := tokenize_obj h o text in calls h o inputs).
    destruct (tokenize_obj h o text) as [[h1 o1] r].
    destruct Hone as (Ho & _ & _ & _ & Hkeep & _).
    specialize (IH h1 o1). destruct (calls h1 o1 inputs) as [h' o'].
    destruct IH as (Ho' & Hkeep'). split; [congruence|].
    intros a Ha Hin. destruct (Hkeep a Ha Hin) as (Hin1 & E1).
    rewrite Ho in Hkeep'. destruct (Hkeep' a Ha Hin1) as (Hin' & E').
    split; [exact Hin' | congruence].
Qed.

(** C8: whatever state earlier calls left the instance in, a call of
    [tokenize] on [s] returns a list with the tokens a new instance
    gives for [s], and leaves the instance as a call on a new instance
    does.  In the heap: after any calls before and between, two calls
    on [s] return two different lists with those same tokens, and the
    list the first call returned still holds them after the second. *)
Theorem calls_independent (s : str) :
  (forall self : DFATokenizer,
     tokenize_method self s = tokenize_method init s /\
     snd (tokenize_method self s) = tokenize s) /\
  (forall (h : Heap) (o : Obj) (earlier between : list str),
     let '(h1, o1) := calls h o earlier in
     let '(h2, o2, r1) := tokenize_obj h1 o1 s in
     let '(h3, o3) := calls h2 o2 between in
     let '(h4, o4, r2) := tokenize_obj h3 o3 s in
     h2 !! r1 = Some (tokenize s) /\
     h4 !! r2 = Some (tokenize s) /\
     h4 !! r1 = Some (tokenize s) /\
     r1 <> r2 /\
     load h4 o4 = load h2 o2).
Proof.
  split.
  { intros self. split; [apply tokenize_method_reset|].
    unfold tokenize. now rewrite tokenize_method_reset. }
  intros h o earlier between.
  destruct (calls h o earlier) as [h1 o1].
  pose proof (tokenize_obj_frame h1 o1 s) as H12.
  destruct (tokenize_obj h1 o1 s) as [[h2 o2] r1].
  destruct H12 as (Ho2 & Hr1 & Hr1h & Hres1 & _ & Hload2).
  pose proof (calls_frame between h2 o2) as H23.
  destruct (calls h2 o2 between) as [h3 o3].
  destruct H23 as (Ho3 & Hkeep3).
  pose proof (tokenize_obj_frame h3 o3 s) as H34.
  destruct (tokenize_obj h3 o3 s) as [[h4 o4] r2].
  destruct H34 as (Ho4 & Hr2 & Hr2h & Hres2 & Hkeep4 & Hload4).
  assert (Hin2 : r1 ∈ dom h2) by (apply elem_of_dom; eauto).
  assert (Hr1' : r1 <> obj_tokens o2) by congruence.
  destruct (Hkeep3 r1 Hr1' Hin2) as (Hin3 & E3).
  assert (Hr1'' : r1 <> obj_tokens o3) by congruence.
  destruct (Hkeep4 r1 Hr1'' Hin3) as (Hin4 & E4).
  split; [exact Hres1|]. split; [exact Hres2|]. split; [congruence|]. split.
  - intros ->. contradiction.
  - now rewrite Hload2, Hload4.
Qed.

End Calls.

(** ** The theorems at work on concrete inputs, with the ASCII table *)

(** C1 on a line of blanks: space, tab, newline, space. *)
Lemma tokenize_total_blank_witness :
  @tokenize ascii_table [32; 9; 10; 32] = [].
Proof.
  apply (proj2 (proj2 (proj2 (@tokenize_total_blank ascii_table [32; 9; 10; 32])))).
  reflexivity.
Defined.

(** C2 on "cat 123abc": the letter [a] ends the number run. *)
Lemma reprocess_rule_witness :
  @step ascii_table (@scan ascii_table (py "cat 123")) 97 =
    @on_start ascii_table
      (set_state START (emit NUMBER (@scan ascii_table (py "cat 123")))) 97 /\
  @scan ascii_table (py "cat 123abc") =
    mkDFATokenizer IN_WORD (py "abc") [mkTok WORD (py "cat"); mkTok NUMBER (py "123")].
Proof.
  pose proof (proj1 (proj2 (@reprocess_rule ascii_table (py "cat 123") 97 (py "bc")))
                eq_refl eq_refl) as (Hstep & _ & Hscan).
  split; [exact Hstep | exact Hscan].
Defined.

(** C3 on the tokens of "x1 + x2 = 10". *)
Lemma tokens_well_shaped_witness :
  value (mkTok WORD (py "x")) <> [] /\
  length (value (mkTok SYMBOL (py "+"))) = 1%nat.
Proof.
  split.
  - apply (@tokens_well_shaped ascii_table ascii_table_keeps_content
             (py "x1 + x2 = 10") (mkTok WORD (py "x"))).
    + vm_compute. auto.
    + left. reflexivity.
  - apply (@tokens_well_shaped ascii_table ascii_table_keeps_content
             (py "x1 + x2 = 10") (mkTok SYMBOL (py "+"))).
    + vm_compute. auto.
    + reflexivity.
Defined.

(** C4 on the boundary inputs "end" and "42", and on "end." *)
Lemma end_of_input_flush_witness :
  @tokenize ascii_table (py "end") = [mkTok WORD (py "end")] /\
  @tokenize ascii_table (py "42") = [mkTok NUMBER (py "42")] /\
  @tokenize ascii_table (py "end.") =
    List.map (@norm_tok ascii_table) (tokens (@scan ascii_table (py "end."))).
Proof.
  split; [|split].
  - apply (proj1 (@end_of_input_flush ascii_table (py "end"))). reflexivity.
  - apply (proj1 (proj2 (@end_of_input_flush ascii_table (py "42")))). reflexivity.
  - apply (proj2 (proj2 (@end_of_input_flush ascii_table (py "end.")))). reflexivity.
Defined.

(** C5 on "Ab 1": the first emitted token is the word "Ab". *)
Lemma final_pass_witness :
  exists t' : Tok,
    nth_error (@tokenize ascii_table (py "Ab 1")) 0 = Some t' /\
    type t' = WORD /\
    (WORD = WORD -> value t' = @lower ascii_table (py "Ab")) /\
    (WORD <> WORD -> t' = mkTok WORD (py "Ab")).
Proof.
  apply (proj2 (proj2 (@final_pass ascii_table (py "Ab 1"))) 0%nat
           (mkTok WORD (py "Ab"))).
  reflexivity.
Defined.

(** C6 with the ASCII table. *)
Lemma apostrophe_rule_witness :
  @tokenize ascii_table (py "don't stop") =
    [mkTok WORD (py "don't"); mkTok WORD (py "stop")].
Proof.
  apply (proj1 (proj2 (proj2 (@apostrophe_rule ascii_table ascii_table_faithful)))).
Defined.

(** C7 with the ASCII table. *)
Lemma scenario_equation_witness :
  @tokenize ascii_table (py "x1 + x2 = 10") =
    [mkTok WORD (py "x"); mkTok NUMBER (py "1"); mkTok SYMBOL (py "+");
     mkTok WORD (py "x"); mkTok NUMBER (py "2"); mkTok SYMBOL (py "=");
     mkTok NUMBER (py "10")].
Proof. apply (@scenario_equation ascii_table ascii_table_faithful). Defined.

(** C9 with the ASCII table. *)
Lemma not_round_trip_witness :
  exists s : str,
    @tokenize ascii_table (texts (@tokenize ascii_table s)) <>
    @tokenize ascii_table s.
Proof. apply (proj1 (@not_round_trip ascii_table ascii_table_faithful)). Defined.

(** C10 on "Hi, 5 you!". *)
Lemma every_character_once_witness :
  texts (@emitted ascii_table (py "Hi, 5 you!")) = py "Hi,5you!" /\
  texts (@tokenize ascii_table (py "Hi, 5 you!")) = py "hi,5you!".
Proof.
  pose proof (@every_character_once ascii_table ascii_table_apart
                (py "Hi, 5 you!")) as (Hp & _ & _ & Ht & _).
  split.
  - rewrite Hp. reflexivity.
  - rewrite Ht. reflexivity.
Defined.

(** ** More about the automaton: how inputs compose *)

Section Composition.

Context {U : PyStr}.

Lemma emit_prepend (pre : list Tok) (ty : TokType) (self : DFATokenizer) :
  emit ty (prepend pre self) = prepend pre (emit ty self).
Proof.
  unfold emit, prepend; simpl. destruct (current self) eqn:E; simpl.
  - now rewrite E.
  - now rewrite app_assoc.
Qed.

Lemma on_start_prepend (pre : list Tok) (self : DFATokenizer) (ch : char) :
  on_start (prepend pre self) ch = prepend pre (on_start self ch).
Proof.
  unfold on_start. destruct (isspace ch); [reflexivity|].
  destruct (isalpha ch); [reflexivity|].
  destruct (isdigit ch); [reflexivity|].
  unfold append_token, prepend; simpl. now rewrite app_assoc.
Qed.

Lemma set_state_prepend (pre : list Tok) (st : State) (self : DFATokenizer) :
  set_state st (prepend pre self) = prepend pre (set_state st self).
Proof. reflexivity. Qed.

Lemma step_prepend (pre : list Tok) (self : DFATokenizer) (ch : char) :
  step (prepend pre self) ch = prepend pre (step self ch).
Proof.
  unfold step. change (state (prepend pre self)) with (state self).
  destruct (state self).
  - apply on_start_prepend.
  - destruct (isalpha ch || (ch =? apostrophe)) eqn:Ec.
    + unfold on_word. rewrite Ec. reflexivity.
    + rewrite !on_word_exit by exact Ec.
      rewrite emit_prepend, set_state_prepend. apply on_start_prepend.
  - destruct (isdigit ch) eqn:Ed.
    + unfold on_number. rewrite Ed. reflexivity.
    + rewrite !on_number_exit by exact Ed.
      rewrite emit_prepend, set_state_prepend. apply on_start_prepend.
Qed.

Lemma run_prepend (text : str) (pre : list Tok) (self : DFATokenizer) :
  run (prepend pre self) text = prepend pre (run self text).
Proof.
  revert self. induction text as [|ch text IH]; intros self.
  - reflexivity.
  - change (run (prepend pre self) (ch :: text))
      with (run (step (prepend pre self) ch) text).
    rewrite step_prepend. apply IH.
Qed.

Lemma flush_prepend (pre : list Tok) (self : DFATokenizer) :
  flush (prepend pre self) = prepend pre (flush self).
Proof.
  unfold flush. change (state (prepend pre self)) with (state self).
  destruct (state self); auto using emit_prepend.
Qed.

(** The scan of a text that follows a finished piece: the tokens of
    the piece, then the tokens of the text. *)
Lemma emitted_after (toks : list Tok) (text : str) :
  tokens (flush (run (mkDFATokenizer START [] toks) text)) =
    toks ++ emitted text.
Proof.
  replace (mkDFATokenizer START [] toks) with (prepend toks (reset init))
    by (unfold prepend; simpl; now rewrite app_nil_r).
  rewrite run_prepend, flush_prepend. reflexivity.
Qed.

(** A gap character ends whatever run there is and leaves START. *)
Lemma step_gap (self : DFATokenizer) (c : char) :
  Inv self -> is_gap c = true ->
  step self c = mkDFATokenizer START [] (tokens (flush self)).
Proof.
  intros HI Hc. unfold is_gap in Hc.
  apply andb_prop in Hc as [Hc Hap]. apply andb_prop in Hc as [Hc Hd].
  apply andb_prop in Hc as [Hs Ha].
  apply negb_true_iff in Ha, Hd, Hap.
  unfold step, flush. destruct (state self) eqn:Est.
  - unfold on_start. rewrite Hs. pose proof (inv_start _ HI Est) as Hcur.
    destruct self as [st cur toks]; simpl in *. now subst.
  - unfold on_word. rewrite Ha, Hap, Hs. simpl.
    unfold set_state. now rewrite emit_current.
  - unfold on_number. rewrite Hd, Hs.
    unfold set_state. now rewrite emit_current.
Qed.

(** A mark character ends whatever run there is, is emitted as a
    SYMBOL and leaves START. *)
Lemma step_mark (self : DFATokenizer) (c : char) :
  Inv self -> is_mark c = true ->
  step self c =
    mkDFATokenizer START [] (tokens (flush self) ++ [mkTok SYMBOL [c]]).
Proof.
  intros HI Hc. unfold is_mark in Hc.
  apply andb_prop in Hc as [Hc Hap]. apply andb_prop in Hc as [Hc Hd].
  apply andb_prop in Hc as [Hs Ha].
  apply negb_true_iff in Hs, Ha, Hd, Hap.
  unfold step, flush. destruct (state self) eqn:Est.
  - unfold on_start. rewrite Hs, Ha, Hd.
    pose proof (inv_start _ HI Est) as Hcur.
    destruct self as [st cur toks]; simpl in *. now subst.
  - unfold on_word. rewrite Ha, Hap, Hs, Hd. simpl.
    unfold append_token, set_state; simpl. now rewrite emit_current.
  - unfold on_number. rewrite Hd, Hs, Ha.
    unfold append_token, set_state; simpl. now rewrite emit_current.
Qed.

Lemma forallb_gap_isspace (w : str) :
  forallb is_gap w = true -> forallb isspace w = true.
Proof.
  induction w as [|c w IH]; simpl; [auto|].
  intros H. apply andb_prop in H as [Hc Hw]. rewrite (IH Hw).
  unfold is_gap in Hc. destruct (isspace c); [reflexivity | discriminate].
Qed.

Lemma run_gaps (self : DFATokenizer) (w : str) :
  Inv self -> w <> [] -> forallb is_gap w = true ->
  run self w = mkDFATokenizer START [] (tokens (flush self)).
Proof.
  intros HI Hne Hw. destruct w as [|c w]; [congruence|].
  simpl in Hw. apply andb_prop in Hw as [Hc Hw].
  change (run self (c :: w)) with (run (step self c) w).
  rewrite (step_gap self c HI Hc).
  apply run_blank; [reflexivity | now apply forallb_gap_isspace].
Qed.

(** X1: whitespace separates and is dropped.  With one or more gap
    characters (whitespace that is no letter, digit or apostrophe)
    between two texts, the tokens are the tokens of the first text
    followed by the tokens of the second; gap characters before or
    after a text change nothing. *)
Theorem whitespace_separates (a w b : str) :
  forallb is_gap w = true ->
  (w <> [] -> tokenize (a ++ w ++ b) = tokenize a ++ tokenize b) /\
  tokenize (w ++ b) = tokenize b /\
  tokenize (a ++ w) = tokenize a.
Proof.
  intros Hw.
  assert (Hmid : forall b' : str, w <> [] ->
            tokenize (a ++ w ++ b') = tokenize a ++ tokenize b').
  { intros b' Hne. rewrite !tokenize_emitted, <- map_app. f_equal.
    unfold emitted at 1. unfold scan at 1. rewrite !run_app.
    fold (scan a). rewrite (run_gaps _ w (scan_inv a) Hne Hw).
    apply emitted_after. }
  split; [apply Hmid|]. split.
  - rewrite !tokenize_emitted. f_equal. unfold emitted, scan.
    rewrite run_app. rewrite (run_blank w); [reflexivity|reflexivity|].
    now apply forallb_gap_isspace.
  - destruct w as [|c w]; [now rewrite app_nil_r|].
    specialize (Hmid [] ltac:(discriminate)).
    rewrite app_nil_r in Hmid. rewrite Hmid.
    change (tokenize []) with (@nil Tok). now rewrite app_nil_r.
Qed.

(** X2: a mark character (no whitespace, letter, digit or apostrophe)
    between two texts is a SYMBOL token of its own between the tokens
    of the first text and the tokens of the second. *)
Theorem symbol_separates (a : str) (c : char) (b : str) :
  is_mark c = true ->
  tokenize (a ++ c :: b) = tokenize a ++ [mkTok SYMBOL [c]] ++ tokenize b.
Proof.
  intros Hc. rewrite !tokenize_emitted.
  change [mkTok SYMBOL [c]] with (List.map norm_tok [mkTok SYMBOL [c]]).
  rewrite <- !map_app. f_equal.
  unfold emitted at 1. unfold scan at 1. rewrite run_app. fold (scan a).
  change (run (scan a) (c :: b)) with (run (step (scan a) c) b).
  rewrite (step_mark _ c (scan_inv a) Hc), emitted_after.
  now rewrite <- app_assoc.
Qed.

Lemma step_tokens_grow (self : DFATokenizer) (ch : char) :
  tokens self `prefix_of` tokens (step self ch).
Proof.
  assert (Hemit : forall ty, tokens self `prefix_of` tokens (emit ty self)).
  { intros ty. unfold emit. destruct (current self); simpl.
    - reflexivity.
    - now apply prefix_app_r. }
  assert (Hstart : forall s0, tokens s0 `prefix_of` tokens (on_start s0 ch)).
  { intros s0. rewrite on_start_effect.
    destruct (isspace ch), (isalpha ch), (isdigit ch); simpl;
      try reflexivity; now apply prefix_app_r. }
  unfold step. destruct (state self).
  - apply Hstart.
  - destruct (isalpha ch || (ch =? apostrophe)) eqn:Ec.
    + unfold on_word. rewrite Ec. reflexivity.
    + rewrite on_word_exit by exact Ec.
      etransitivity; [apply (Hemit WORD)|].
      apply (Hstart (set_state START (emit WORD self))).
  - destruct (isdigit ch) eqn:Ed.
    + unfold on_number. rewrite Ed. reflexivity.
    + rewrite on_number_exit by exact Ed.
      etransitivity; [apply (Hemit NUMBER)|].
      apply (Hstart (set_state START (emit NUMBER self))).
Qed.

Lemma run_tokens_grow (text : str) (self : DFATokenizer) :
  tokens self `prefix_of` tokens (run self text).
Proof.
  revert self. induction text as [|ch text IH]; intros self.
  - reflexivity.
  - change (run self (ch :: text)) with (run (step self ch) text).
    etransitivity; [apply step_tokens_grow | apply IH].
Qed.

Lemma flush_tokens_grow (self : DFATokenizer) :
  tokens self `prefix_of` tokens (flush self).
Proof.
  unfold flush, emit.
  destruct (state self), (current self); simpl;
    try reflexivity; now apply prefix_app_r.
Qed.

(** X3: a token, once emitted, stays.  The tokens emitted while a
    prefix of the input is read are, lower-cased, the first tokens of
    the result, whatever follows the prefix. *)
Theorem emitted_tokens_stay (a b : str) :
  List.map norm_tok (tokens (scan a)) `prefix_of` tokenize (a ++ b) /\
  tokens (scan a) `prefix_of` tokens (scan (a ++ b)).
Proof.
  assert (Hscan : tokens (scan a) `prefix_of` tokens (scan (a ++ b))).
  { unfold scan at 2. rewrite run_app. apply run_tokens_grow. }
  split; [|exact Hscan].
  rewrite tokenize_emitted. unfold emitted.
  destruct Hscan as [k1 E1].
  destruct (flush_tokens_grow (scan (a ++ b))) as [k2 E2].
  exists (List.map norm_tok (k1 ++ k2)).
  now rewrite E2, E1, <- map_app, <- app_assoc.
Qed.

Lemma visible_le (text : str) : (length (visible text) <= length text)%nat.
Proof. unfold visible. apply List.filter_length_le. Qed.

Lemma emit_length (ty : TokType) (self : DFATokenizer) :
  (length (tokens (emit ty self)) <= S (length (tokens self)))%nat.
Proof.
  unfold emit. destruct (current self); simpl; [lia|].
  rewrite length_app. simpl. lia.
Qed.

Lemma on_start_pending (self : DFATokenizer) (ch : char) :
  state self = START ->
  (pending (on_start self ch) =
     length (tokens self) + length (visible [ch]))%nat.
Proof.
  intros Hst. rewrite on_start_effect. unfold pending, visible. simpl.
  destruct (isspace ch); simpl; [rewrite Hst; lia|].
  destruct (isalpha ch); simpl; [lia|].
  destruct (isdigit ch); simpl; [lia|].
  rewrite Hst, length_app. simpl. lia.
Qed.

Lemma step_pending (self : DFATokenizer) (ch : char) :
  (pending (step self ch) <= pending self + length (visible [ch]))%nat.
Proof.
  unfold step. destruct (state self) eqn:Est.
  - rewrite on_start_pending by exact Est. unfold pending. rewrite Est. lia.
  - destruct (isalpha ch || (ch =? apostrophe)) eqn:Ec.
    + unfold on_word. rewrite Ec. unfold pending; simpl. rewrite Est. lia.
    + rewrite on_word_exit by exact Ec.
      rewrite on_start_pending by reflexivity. simpl.
      pose proof (emit_length WORD self). unfold pending. rewrite Est. lia.
  - destruct (isdigit ch) eqn:Ed.
    + unfold on_number. rewrite Ed. unfold pending; simpl. rewrite Est. lia.
    + rewrite on_number_exit by exact Ed.
      rewrite on_start_pending by reflexivity. simpl.
      pose proof (emit_length NUMBER self). unfold pending. rewrite Est. lia.
Qed.

Lemma run_pending (text : str) (self : DFATokenizer) :
  (pending (run self text) <= pending self + length (visible text))%nat.
Proof.
  revert self. induction text as [|ch text IH]; intros self.
  - simpl. lia.
  - change (run self (ch :: text)) with (run (step self ch) text).
    specialize (IH (step self ch)). pose proof (step_pending self ch) as Hs.
    change (ch :: text) with ([ch] ++ text).
    unfold visible in *. rewrite List.filter_app, length_app. lia.
Qed.

(** X4: there are never more tokens than characters that are not
    whitespace: every token of the result accounts for at least one
    such character of the input. *)
Theorem token_count_bound (text : str) :
  (length (tokenize text) <= length (visible text))%nat /\
  (length (tokenize text) <= length text)%nat.
Proof.
  assert (H : (length (tokenize text) <= length (visible text))%nat).
  { rewrite tokenize_emitted, length_map. unfold emitted.
    pose proof (run_pending text (reset init)) as Hrun. fold (scan text) in Hrun.
    assert (Hf : (length (tokens (flush (scan text))) <= pending (scan text))%nat).
    { unfold flush, pending. destruct (state (scan text)).
      - lia.
      - pose proof (emit_length WORD (scan text)). lia.
      - pose proof (emit_length NUMBER (scan text)). lia. }
    unfold pending in Hrun at 2. simpl in Hrun. lia. }
  split; [exact H|]. pose proof (visible_le text). lia.
Qed.

End Composition.

(** ** More about the automaton: what the tokens hold *)

Section Classification.

Context {U : PyStr}.

Lemma is_word_text_snoc (v : str) (ch : char) :
  is_word_text v = true -> isalpha ch || (ch =? apostrophe) = true ->
  is_word_text (v ++ [ch]) = true.
Proof.
  destruct v as [|c rest]; simpl; [discriminate|].
  intros H Hch. apply andb_prop in H as [Hc Hrest].
  rewrite Hc, forallb_app, Hrest. simpl. now rewrite Hch.
Qed.

Lemma is_number_text_snoc (v : str) (ch : char) :
  is_number_text v = true -> isdigit ch = true ->
  is_number_text (v ++ [ch]) = true.
Proof.
  destruct v as [|c rest]; simpl; [discriminate|].
  intros H Hch. apply andb_prop in H as [Hc Hrest].
  rewrite Hc, forallb_app, Hrest. simpl. now rewrite Hch.
Qed.

Lemma emit_classified (ty : TokType) (self : DFATokenizer) :
  (state self = IN_WORD /\ ty = WORD) \/
  (state self = IN_NUMBER /\ ty = NUMBER) ->
  forallb classified (tokens self) = true ->
  buffer_classified self = true ->
  forallb classified (tokens (emit ty self)) = true.
Proof.
  intros Hty Htoks Hbuf. unfold emit.
  destruct (current self) eqn:E; simpl; [exact Htoks|].
  rewrite forallb_app, Htoks. simpl. rewrite andb_true_r.
  unfold buffer_classified in Hbuf. unfold classified; simpl.
  destruct Hty as [[Hst ->]|[Hst ->]]; rewrite Hst, E in Hbuf; exact Hbuf.
Qed.

Lemma on_start_classified (self : DFATokenizer) (ch : char) :
  state self = START -> current self = [] ->
  forallb classified (tokens self) = true ->
  forallb classified (tokens (on_start self ch)) = true /\
  buffer_classified (on_start self ch) = true.
Proof.
  intros Hst Hcur Htoks. rewrite on_start_effect, Hcur.
  unfold buffer_classified.
  destruct (isspace ch) eqn:Es; [now rewrite Hst|].
  destruct (isalpha ch) eqn:Ea; [simpl; now rewrite Ea|].
  destruct (isdigit ch) eqn:Ed; [simpl; now rewrite Ed|].
  simpl. rewrite Hst, forallb_app, Htoks. unfold classified; simpl.
  now rewrite Es, Ea, Ed.
Qed.

Lemma step_classified (self : DFATokenizer) (ch : char) :
  Inv self ->
  forallb classified (tokens self) = true ->
  buffer_classified self = true ->
  forallb classified (tokens (step self ch)) = true /\
  buffer_classified (step self ch) = true.
Proof.
  intros HI Htoks Hbuf. unfold step. destruct (state self) eqn:Est.
  - apply on_start_classified; auto. apply (inv_start _ HI Est).
  - destruct (isalpha ch || (ch =? apostrophe)) eqn:Ec.
    + unfold on_word. rewrite Ec. split; [exact Htoks|].
      unfold buffer_classified in *; simpl. rewrite Est in *.
      now apply is_word_text_snoc.
    + rewrite on_word_exit by exact Ec.
      apply on_start_classified;
        [reflexivity | apply emit_current | apply emit_classified; auto].
  - destruct (isdigit ch) eqn:Ed.
    + unfold on_number. rewrite Ed. split; [exact Htoks|].
      unfold buffer_classified in *; simpl. rewrite Est in *.
      now apply is_number_text_snoc.
    + rewrite on_number_exit by exact Ed.
      apply on_start_classified;
        [reflexivity | apply emit_current | apply emit_classified; auto].
Qed.

Lemma run_classified (text : str) (self : DFATokenizer) :
  Inv self ->
  forallb classified (tokens self) = true ->
  buffer_classified self = true ->
  forallb classified (tokens (run self text)) = true /\
  buffer_classified (run self text) = true.
Proof.
  revert self. induction text as [|ch text IH]; intros self HI Htoks Hbuf.
  - auto.
  - change (run self (ch :: text)) with (run (step self ch) text).
    destruct (step_classified self ch HI Htoks Hbuf) as [Ht Hb].
    apply IH; [now apply step_inv | exact Ht | exact Hb].
Qed.

Lemma emitted_classified (text : str) :
  forallb classified (emitted text) = true.
Proof.
  unfold emitted, flush.
  destruct (run_classified text (reset init) (reset_inv init)
              eq_refl eq_refl) as [Ht Hb].
  fold (scan text) in Ht, Hb.
  destruct (state (scan text)) eqn:Est.
  - exact Ht.
  - apply emit_classified; auto.
  - apply emit_classified; auto.
Qed.

(** X5: every token is what its kind says.  Before lower-casing, a
    WORD is a letter followed by letters and apostrophes, a NUMBER is
    one or more digits, a SYMBOL is one character that is no
    whitespace, letter or digit; the result holds the NUMBER and SYMBOL
    tokens as they are and the WORD tokens lower-cased. *)
Theorem tokens_classified (text : str) :
  forallb classified (emitted text) = true /\
  (forall t : Tok, In t (tokenize text) ->
     match type t with
     | WORD => exists v : str, is_word_text v = true /\ value t = lower v
     | NUMBER => is_number_text (value t) = true
     | SYMBOL => is_symbol_text (value t) = true
     end).
Proof.
  pose proof (emitted_classified text) as Hem.
  split; [exact Hem|].
  intros t Hin. rewrite tokenize_emitted in Hin.
  apply in_map_iff in Hin as (t0 & <- & Hin0).
  rewrite forallb_forall in Hem. specialize (Hem t0 Hin0).
  unfold classified in Hem. unfold norm_tok.
  destruct t0 as [ty v]; simpl in *. destruct ty; simpl; eauto.
Qed.

Lemma flush_state (self : DFATokenizer) : state (flush self) = state self.
Proof.
  unfold flush, emit. now destruct (state self) eqn:E, (current self).
Qed.

(** X6: what a call leaves in the instance.  The buffer is empty,
    [self.tokens] holds the tokens as emitted (words in their original
    case; the result is their lower-cased copy), and [self.state] is
    the state the scan ended in: the flush does not bring it back to
    START. *)
Theorem instance_after_call (self : DFATokenizer) (text : str) :
  let after := fst (tokenize_method self text) in
  current after = [] /\
  tokens after = emitted text /\
  state after = state (scan text) /\
  snd (tokenize_method self text) = List.map norm_tok (tokens after).
Proof.
  intros after. unfold after, tokenize_method; simpl.
  change (run (reset self) text) with (scan text).
  pose proof (scan_inv text) as HI.
  split; [|split; [|split]].
  - unfold flush. destruct (state (scan text)) eqn:Est.
    + apply (inv_start _ HI Est).
    + apply emit_current.
    + apply emit_current.
  - reflexivity.
  - apply flush_state.
  - apply normalize_map.
Qed.

End Classification.

(** ** More about the automaton: letter case *)

Lemma ascii_lower_char_class (c : char) :
  ascii_isspace (ascii_lower_char c) = ascii_isspace c /\
  ascii_isalpha (ascii_lower_char c) = ascii_isalpha c /\
  ascii_isdigit (ascii_lower_char c) = ascii_isdigit c /\
  (ascii_lower_char c =? apostrophe) = (c =? apostrophe).
Proof.
  unfold ascii_isspace, ascii_isalpha, ascii_isdigit, ascii_lower_char,
    apostrophe.
  destruct (N.leb_spec 65 c) as [H65|H65], (N.leb_spec c 90) as [H90|H90];
    cbn [andb];
  repeat split;
    repeat match goal with
           | |- context [?a <=? ?b] => destruct (N.leb_spec a b)
           | |- context [?a =? ?b] => destruct (N.eqb_spec a b)
           end; cbn [andb orb]; try reflexivity; lia.
Qed.

Lemma ascii_lower_char_twice (c : char) :
  ascii_lower_char (ascii_lower_char c) = ascii_lower_char c.
Proof.
  unfold ascii_lower_char.
  destruct (N.leb_spec 65 c), (N.leb_spec c 90); simpl; auto;
    try (destruct (N.leb_spec 65 c), (N.leb_spec c 90); simpl; auto; lia).
  destruct (N.leb_spec 65 (c + 32)), (N.leb_spec (c + 32) 90);
    simpl; auto; lia.
Qed.

Lemma ascii_lower_twice (s : str) : ascii_lower (ascii_lower s) = ascii_lower s.
Proof.
  unfold ascii_lower. rewrite List.map_map. apply List.map_ext.
  apply ascii_lower_char_twice.
Qed.

Lemma ascii_lower_is_ascii (s : str) :
  Forall is_ascii s -> Forall is_ascii (ascii_lower s).
Proof.
  induction 1 as [|c s Hc _ IH]; simpl; constructor; [|exact IH].
  unfold is_ascii, ascii_lower_char in *.
  destruct (N.leb_spec 65 c), (N.leb_spec c 90); simpl; lia.
Qed.

Lemma emit_low (ty : TokType) (self : DFATokenizer) :
  emit ty (low_state self) = low_state (emit ty self).
Proof.
  unfold emit, low_state; simpl. destruct (current self) eqn:E; simpl.
  - now rewrite E.
  - now rewrite map_app.
Qed.

Lemma on_start_low (self : DFATokenizer) (c : char) :
  @on_start ascii_table (low_state self) (ascii_lower_char c) =
    low_state (@on_start ascii_table self c).
Proof.
  destruct (ascii_lower_char_class c) as (Hs & Ha & Hd & _).
  unfold on_start; simpl. rewrite Hs, Ha, Hd.
  destruct (ascii_isspace c); [reflexivity|].
  destruct (ascii_isalpha c).
  { unfold low_state, add_current; simpl. unfold ascii_lower.
    now rewrite map_app. }
  destruct (ascii_isdigit c).
  { unfold low_state, add_current; simpl. unfold ascii_lower.
    now rewrite map_app. }
  unfold low_state, append_token; simpl. now rewrite map_app.
Qed.

Lemma step_low (self : DFATokenizer) (c : char) :
  @step ascii_table (low_state self) (ascii_lower_char c) =
    low_state (@step ascii_table self c).
Proof.
  destruct (ascii_lower_char_class c) as (Hs & Ha & Hd & Hap).
  unfold step. change (state (low_state self)) with (state self).
  destruct (state self).
  - apply on_start_low.
  - destruct (@isalpha ascii_table c || (c =? apostrophe)) eqn:Ec.
    + unfold on_word; simpl in *. rewrite Ha, Hap, Ec.
      unfold low_state, add_current; simpl. unfold ascii_lower.
      now rewrite map_app.
    + rewrite (@on_word_exit ascii_table self c Ec).
      rewrite (@on_word_exit ascii_table (low_state self));
        [|simpl in *; now rewrite Ha, Hap].
      rewrite emit_low.
      apply (on_start_low (set_state START (emit WORD self)) c).
  - destruct (@isdigit ascii_table c) eqn:Ed.
    + unfold on_number; simpl in *. rewrite Hd, Ed.
      unfold low_state, add_current; simpl. unfold ascii_lower.
      now rewrite map_app.
    + rewrite (@on_number_exit ascii_table self c Ed).
      rewrite (@on_number_exit ascii_table (low_state self));
        [|simpl in *; now rewrite Hd].
      rewrite emit_low.
      apply (on_start_low (set_state START (emit NUMBER self)) c).
Qed.

Lemma run_low (text : str) (self : DFATokenizer) :
  @run ascii_table (low_state self) (ascii_lower text) =
    low_state (@run ascii_table self text).
Proof.
  revert self. induction text as [|c text IH]; intros self.
  - reflexivity.
  - change (@run ascii_table self (c :: text))
      with (@run ascii_table (@step ascii_table self c) text).
    rewrite <- IH, <- step_low. reflexivity.
Qed.

Lemma flush_low (self : DFATokenizer) :
  flush (low_state self) = low_state (flush self).
Proof.
  unfold flush. change (state (low_state self)) with (state self).
  destruct (state self); auto using emit_low.
Qed.

Lemma ascii_lower_char_other (c : char) :
  ascii_isalpha c = false -> ascii_lower_char c = c.
Proof.
  unfold ascii_isalpha, ascii_lower_char.
  destruct (N.leb_spec 65 c), (N.leb_spec c 90); simpl; auto; discriminate.
Qed.

Lemma ascii_lower_digits (v : str) :
  forallb ascii_isdigit v = true -> ascii_lower v = v.
Proof.
  induction v as [|c v IH]; simpl; [reflexivity|].
  intros H. apply andb_prop in H as [Hc Hv]. rewrite (IH Hv). f_equal.
  apply ascii_lower_char_other. revert Hc.
  unfold ascii_isdigit, ascii_isalpha.
  destruct (N.leb_spec 48 c), (N.leb_spec c 57), (N.leb_spec 65 c),
    (N.leb_spec c 90), (N.leb_spec 97 c), (N.leb_spec c 122);
    simpl; auto; lia.
Qed.

(** Lower-casing first changes no token of the final result. *)
Lemma norm_low_tok (t : Tok) :
  @classified ascii_table t = true ->
  @norm_tok ascii_table (low_tok t) = @norm_tok ascii_table t.
Proof.
  destruct t as [ty v]. unfold classified, norm_tok, low_tok; simpl.
  destruct ty; simpl; intros Hc.
  - now rewrite ascii_lower_twice.
  - f_equal. apply ascii_lower_digits.
    destruct v; [discriminate | exact Hc].
  - f_equal. destruct v as [|c [|? ?]]; try discriminate. simpl. f_equal.
    apply ascii_lower_char_other.
    apply andb_prop in Hc as [Hc _]. apply andb_prop in Hc as [_ Ha].
    now apply negb_true_iff in Ha.
Qed.

(** X7: the case of ASCII letters plays no part.  For ASCII text, and
    tables that agree with CPython's on the ASCII range, the text with
    its capital letters replaced by small ones has the same tokens. *)
Theorem ascii_case_blind {U : PyStr} (HU : ascii_faithful U) (text : str) :
  Forall is_ascii text ->
  tokenize (ascii_lower text) = tokenize text /\
  tokenize (lower text) = tokenize text.
Proof.
  intros Htext.
  assert (H : tokenize (ascii_lower text) = tokenize text).
  { rewrite !(tokenize_ascii HU) by auto using ascii_lower_is_ascii.
    rewrite !tokenize_emitted. unfold emitted at 1. unfold scan.
    change (reset init) with (low_state (reset init)).
    rewrite run_low, flush_low. simpl.
    rewrite List.map_map. apply List.map_ext_in. intros t Hin.
    apply norm_low_tok.
    pose proof (@emitted_classified ascii_table text) as Hc.
    rewrite forallb_forall in Hc. now apply Hc. }
  split; [exact H|]. now rewrite (af_lower U HU text Htext).
Qed.

(** ** The dependency tree: printing *)

Module DepTheory.

Import Dep.












(** *** Building the tree *)

Lemma add_children_nil (o : DepObj) : add_children o [] = o.
Proof. destruct o. unfold add_children; simpl. now rewrite app_nil_r. Qed.

Lemma add_child_children (o : DepObj) (k : nat) (ks : list nat) :
  add_children (add_child o k) ks = add_children o (k :: ks).
Proof.
  unfold add_children, add_child; simpl. now rewrite <- app_assoc.
Qed.

Lemma link_length (nodes : list DepObj) (root : option nat) (k : nat)
    (tok : Spacy.Token) (nodes' : list DepObj) (root' : option nat) :
  link nodes root k tok = Returns (nodes', root') ->
  length nodes' = length nodes.
Proof.
  unfold link. destruct (Nat.eqb _ _).
  - intros [= <- _]. reflexivity.
  - destruct (nodes !! Spacy.head_i tok); [|discriminate].
    intros [= <- _]. apply length_insert.
Qed.

(** The loop stops with [IndexError] exactly when it meets a token
    that is not its own head and whose head is outside the list. *)
Lemma link_all_error (doc : list Spacy.Token) (k : nat)
    (nodes : list DepObj) (root : option nat) :
  link_all k doc nodes root = IndexError <->
  Exists (fun t => own_head t = false /\
                   (length nodes <= Spacy.head_i t)%nat) doc.
Proof.
  revert k nodes root. induction doc as [|t doc IH]; intros k nodes root.
  - simpl. split; [discriminate | intros H; inversion H].
  - simpl. rewrite Exists_cons.
    destruct (link nodes root k t) as [[nodes' root']|] eqn:El.
    + rewrite IH, (link_length _ _ _ _ _ _ El).
      split; [auto|]. intros [[Hown Hout]|H]; [|exact H].
      exfalso. revert El. unfold link. fold (own_head t). rewrite Hown.
      rewrite (lookup_ge_None_2 _ _ Hout). discriminate.
    + split; [|reflexivity]. intros _. left.
      revert El. unfold link. fold (own_head t).
      destruct (own_head t); [discriminate|].
      destruct (nodes !! Spacy.head_i t) eqn:Eh; [discriminate|].
      intros _. split; [reflexivity|]. now apply lookup_ge_None.
Qed.

(** What the loop leaves when it does not stop: every node has got
    the children the rest of the tokens give it, and the root is the
    last token that is its own head, or the root there was. *)
Lemma link_all_returns (doc : list Spacy.Token) (k : nat)
    (nodes : list DepObj) (root : option nat) :
  Forall (fun t => own_head t = false ->
                   (Spacy.head_i t < length nodes)%nat) doc ->
  link_all k doc nodes root =
    Returns (imap (fun j o => add_children o (kids k doc j)) nodes,
             from_option Some root (last_own k doc)).
Proof.
  intros Hdoc. revert k nodes root Hdoc.
  induction doc as [|t doc IH]; intros k nodes root Hdoc.
  - simpl. f_equal. f_equal. apply list_eq. intros j.
    rewrite list_lookup_imap. destruct (nodes !! j); simpl; [|reflexivity].
    now rewrite add_children_nil.
  - apply Forall_cons in Hdoc as [Ht Hdoc]. simpl. unfold link.
    fold (own_head t). destruct (own_head t) eqn:Eown.
    + rewrite IH by exact Hdoc. simpl.
      f_equal. f_equal. now destruct (last_own (S k) doc).
    + specialize (Ht eq_refl).
      destruct (lookup_lt_is_Some_2 _ _ Ht) as [o Eo]. rewrite Eo.
      rewrite IH by (now rewrite length_insert).
      f_equal. f_equal; [|now destruct (last_own (S k) doc)].
      apply list_eq. intros j. rewrite !list_lookup_imap. simpl.
      destruct (decide (Spacy.head_i t = j)) as [<-|Hne].
      * rewrite list_lookup_insert_eq by exact Ht. rewrite Eo. simpl.
        rewrite Nat.eqb_refl. simpl. now rewrite add_child_children.
      * rewrite list_lookup_insert_ne by exact Hne.
        apply Nat.eqb_neq in Hne. now rewrite Hne.
Qed.

Lemma imap_new_node (doc : list Spacy.Token) (f : nat -> list nat) :
  imap (fun j o => add_children o (f j)) (List.map new_node doc) =
  imap (fun j t =>
          mkDepNode (Spacy.text t) (Spacy.lemma_ t) (Spacy.pos_ t)
            (Spacy.dep_ t) (f j)) doc.
Proof.
  apply list_eq. intros j. rewrite !list_lookup_imap.
  change (List.map new_node doc) with (new_node <$> doc).
  rewrite list_lookup_fmap. now destruct (doc !! j).
Qed.

Lemma build_dep_tree_loop (doc : list Spacy.Token) :
  build_dep_tree doc = link_all 0 doc (List.map new_node doc) None.
Proof. now destruct doc. Qed.

(** X10: [build_dep_tree] raises [IndexError] exactly when some token
    that is not its own head has its head outside the document; the
    empty document raises nothing. *)
Theorem build_dep_tree_error (doc : list Spacy.Token) :
  build_dep_tree doc = IndexError <->
  exists t : Spacy.Token,
    In t doc /\ Spacy.head_i t <> Spacy.i t /\
    (length doc <= Spacy.head_i t)%nat.
Proof.
  assert (Hex : Exists (fun t => own_head t = false /\
                   (length doc <= Spacy.head_i t)%nat) doc <->
                exists t, In t doc /\ Spacy.head_i t <> Spacy.i t /\
                  (length doc <= Spacy.head_i t)%nat).
  { rewrite Exists_exists. split; intros (t & Hin & Ht); exists t.
    - apply list_elem_of_In in Hin. destruct Ht as [Hown Hout].
      apply Nat.eqb_neq in Hown. auto.
    - apply list_elem_of_In in Hin. destruct Ht as [Hown Hout].
      apply Nat.eqb_neq in Hown. auto. }
  rewrite <- Hex, build_dep_tree_loop, link_all_error.
  now rewrite length_map.
Qed.

(** X11: when every token that is not its own head has its head in
    the document, [build_dep_tree] returns; there is one node per
    token, in the order of the document, with the token's text, lemma,
    part of speech and relation, and with the tokens that name it as
    head for children, in the order of the document; the root is the
    last token that is its own head. *)
Theorem build_dep_tree_result (doc : list Spacy.Token) :
  Forall (fun t => Spacy.head_i t <> Spacy.i t ->
                   (Spacy.head_i t < length doc)%nat) doc ->
  build_dep_tree doc =
    Returns (imap (linked_node doc) doc, last_own 0 doc).
Proof.
  intros Hdoc. rewrite build_dep_tree_loop, link_all_returns.
  - rewrite imap_new_node. simpl from_option.
    now destruct (last_own 0 doc).
  - rewrite length_map. eapply Forall_impl; [exact Hdoc|].
    intros t' Ht' Hown. apply Ht'. now apply Nat.eqb_neq.
Qed.

Lemma kids_in (doc : list Spacy.Token) (k0 j k : nat) :
  In k (kids k0 doc j) <->
  (k0 <= k)%nat /\
  exists t : Spacy.Token,
    doc !! (k - k0)%nat = Some t /\ own_head t = false /\ Spacy.head_i t = j.
Proof.
  revert k0. induction doc as [|t doc IH]; intros k0; simpl.
  - split; [contradiction | intros (_ & t & Ht & _); discriminate].
  - rewrite in_app_iff, IH. split.
    + intros [Hk|(Hle & t' & Ht' & Hown & Hj)].
      * destruct (own_head t) eqn:Eown; simpl in Hk; [contradiction|].
        destruct (Nat.eqb_spec (Spacy.head_i t) j) as [Ej|]; [|contradiction].
        destruct Hk as [<-|[]]. split; [lia|]. exists t.
        now rewrite Nat.sub_diag.
      * split; [lia|]. exists t'. split; [|auto].
        replace (k - k0)%nat with (S (k - S k0)) by lia. exact Ht'.
    + intros (Hle & t' & Ht' & Hown & Hj).
      destruct (decide (k = k0)) as [->|Hne].
      * left. rewrite Nat.sub_diag in Ht'. injection Ht' as ->.
        rewrite Hown, Hj, Nat.eqb_refl. now left.
      * right. split; [lia|]. exists t'. split; [|auto].
        replace (k - k0)%nat with (S (k - S k0)) in Ht' by lia. exact Ht'.
Qed.

Lemma kids_sorted (doc : list Spacy.Token) (k0 j : nat) :
  StronglySorted lt (kids k0 doc j).
Proof.
  revert k0. induction doc as [|t doc IH]; intros k0; simpl.
  - constructor.
  - destruct (negb (own_head t) && Nat.eqb (Spacy.head_i t) j); simpl.
    + constructor; [apply IH|]. apply Forall_forall. intros k Hk.
      apply list_elem_of_In, kids_in in Hk. lia.
    + apply IH.
Qed.

Lemma last_own_none (doc : list Spacy.Token) (k0 : nat) :
  last_own k0 doc = None <-> Forall (fun t => own_head t = false) doc.
Proof.
  revert k0. induction doc as [|t doc IH]; intros k0; simpl.
  - split; [constructor | reflexivity].
  - rewrite Forall_cons. specialize (IH (S k0)).
    destruct (last_own (S k0) doc).
    + split; [discriminate|]. intros [_ H]. now apply IH in H.
    + destruct (own_head t); split; try discriminate; try tauto.
      intros [H _]. discriminate.
Qed.

Lemma last_own_some (doc : list Spacy.Token) (k0 r : nat) :
  last_own k0 doc = Some r ->
  (k0 <= r)%nat /\
  (exists t : Spacy.Token,
     doc !! (r - k0)%nat = Some t /\ own_head t = true) /\
  (forall (k : nat) (t : Spacy.Token),
     doc !! k = Some t -> own_head t = true -> (k0 + k <= r)%nat).
Proof.
  revert k0. induction doc as [|t doc IH]; intros k0; simpl; [discriminate|].
  destruct (last_own (S k0) doc) as [r'|] eqn:El.
  - intros [= ->].
    destruct (IH (S k0) El) as (Hle & (t' & Ht' & Hown) & Hlast).
    split; [lia|]. split.
    + exists t'. split; [|exact Hown].
      replace (r - k0)%nat with (S (r - S k0)) by lia. exact Ht'.
    + intros [|k] t0 Ht0 Hown0; [lia|].
      specialize (Hlast k t0 Ht0 Hown0). lia.
  - destruct (own_head t) eqn:Eown; [|discriminate]. intros [= <-].
    split; [lia|]. split.
    + exists t. now rewrite Nat.sub_diag.
    + intros [|k] t0 Ht0 Hown0; [lia|]. simpl in Ht0.
      apply last_own_none in El. rewrite Forall_forall in El.
      apply list_elem_of_lookup_2 in Ht0. specialize (El t0 Ht0).
      congruence.
Qed.

(** What a call that returns has returned. *)
Lemma build_dep_tree_returns (doc : list Spacy.Token)
    (nodes : list DepObj) (root : option nat) :
  build_dep_tree doc = Returns (nodes, root) ->
  nodes = imap (linked_node doc) doc /\ root = last_own 0 doc.
Proof.
  intros Hret. rewrite build_dep_tree_loop in Hret.
  assert (Hdoc : Forall (fun t => own_head t = false ->
                   (Spacy.head_i t < length (List.map new_node doc))%nat) doc).
  { assert (Hno : ~ Exists (fun t => own_head t = false /\
               (length (List.map new_node doc) <= Spacy.head_i t)%nat) doc).
    { intros Hex. apply link_all_error with (k := 0%nat) (root := None) in Hex.
      congruence. }
    apply Forall_Exists_neg in Hno. eapply Forall_impl; [exact Hno|].
    intros t Ht Hown. simpl in Ht.
    destruct (le_lt_dec (length (List.map new_node doc)) (Spacy.head_i t));
      [exfalso; auto | assumption]. }
  rewrite (link_all_returns doc 0 _ None Hdoc), imap_new_node in Hret.
  inversion Hret. split; [reflexivity|]. now destruct (last_own 0 doc).
Qed.

(** X12: the shape of what [build_dep_tree] returns.  Token [k] is
    among the children of node [j] exactly when it is not its own head
    and its head is [j]; the children of a node are in rising order,
    none twice; there is no root exactly when no token is its own head,
    and a root is a token that is its own head, no later token being
    one. *)
Theorem build_dep_tree_shape (doc : list Spacy.Token)
    (nodes : list DepObj) (root : option nat) :
  build_dep_tree doc = Returns (nodes, root) ->
  length nodes = length doc /\
  (forall (j : nat) (o : DepObj), nodes !! j = Some o ->
     StronglySorted lt (children o) /\
     forall k : nat, In k (children o) <->
       exists t : Spacy.Token,
         doc !! k = Some t /\ Spacy.head_i t <> Spacy.i t /\
         Spacy.head_i t = j) /\
  (root = None <->
     forall t : Spacy.Token, In t doc -> Spacy.head_i t <> Spacy.i t) /\
  (forall r : nat, root = Some r ->
     (exists t : Spacy.Token,
        doc !! r = Some t /\ Spacy.head_i t = Spacy.i t) /\
     forall (k : nat) (t : Spacy.Token),
       doc !! k = Some t -> Spacy.head_i t = Spacy.i t -> (k <= r)%nat).
Proof.
  intros Hret. apply build_dep_tree_returns in Hret as [-> ->].
  split; [apply length_imap|]. split; [|split].
  - intros j o Ho. rewrite list_lookup_imap in Ho.
    destruct (doc !! j) as [t|]; [|discriminate]. injection Ho as <-.
    simpl. split; [apply kids_sorted|]. intros k. rewrite kids_in.
    rewrite Nat.sub_0_r. split.
    + intros (_ & t' & Ht' & Hown & Hj). exists t'.
      apply Nat.eqb_neq in Hown. auto.
    + intros (t' & Ht' & Hown & Hj). split; [lia|]. exists t'.
      apply Nat.eqb_neq in Hown. auto.
  - rewrite last_own_none, Forall_forall. split.
    + intros H t Hin. apply Nat.eqb_neq, H. now apply list_elem_of_In.
    + intros H t Hin. apply Nat.eqb_neq, H. now apply list_elem_of_In.
  - intros r Hr. apply last_own_some in Hr as (_ & (t & Ht & Hown) & Hlast).
    rewrite Nat.sub_0_r in Ht. split.
    + exists t. split; [exact Ht|]. now apply Nat.eqb_eq.
    + intros k t' Ht' Hown'. apply (Hlast k t' Ht'). now apply Nat.eqb_eq.
Qed.

(** *** The sentence check *)

(** The function, with its early returns folded into one expression. *)
Lemma is_likely_natural_sentence_eq (doc : list Spacy.Token) :
  is_likely_natural_sentence doc =
    match List.filter is_root doc with
    | [root] => is_verbal root && existsb is_subject doc
    | _ => false
    end.
Proof.
  unfold is_likely_natural_sentence.
  change (fun t => bool_decide (Spacy.dep_ t = py "ROOT")) with is_root.
  destruct (List.filter is_root doc) as [|root [|r2 roots]];
    cbn [length Nat.eqb negb].
  - reflexivity.
  - change (str_in (Spacy.pos_ root) [py "VERB"; py "AUX"])
      with (is_verbal root).
    change (fun t => str_in (Spacy.dep_ t)
                       [py "nsubj"; py "nsubjpass"; py "csubj"])
      with is_subject.
    now destruct (is_verbal root), (existsb is_subject doc).
  - reflexivity.
Qed.

Lemma filter_singleton {A : Type} (f : A -> bool) (l : list A) (x : A) :
  List.filter f l = [x] <->
  exists pre post : list A,
    l = pre ++ x :: post /\ f x = true /\
    Forall (fun y => f y = false) (pre ++ post).
Proof.
  split.
  - induction l as [|y l IH]; simpl; [discriminate|].
    destruct (f y) eqn:Ey.
    + intros [= -> Hl]. exists [], l. split; [reflexivity|]. split; [exact Ey|].
      simpl. apply Forall_forall. intros z Hz.
      destruct (f z) eqn:Ez; [|reflexivity].
      assert (Hin : In z (List.filter f l))
        by (apply filter_In; split; [now apply list_elem_of_In | exact Ez]).
      rewrite Hl in Hin. contradiction.
    + intros Hl. destruct (IH Hl) as (pre & post & -> & Hx & Hrest).
      exists (y :: pre), post. split; [reflexivity|]. split; [exact Hx|].
      simpl. constructor; assumption.
  - intros (pre & post & -> & Hx & Hrest).
    apply Forall_app in Hrest as [Hpre Hpost].
    assert (Hnone : forall l0, Forall (fun y => f y = false) l0 ->
              List.filter f l0 = []).
    { induction 1 as [|y l0 Hy _ IH]; simpl; [reflexivity|]. now rewrite Hy. }
    rewrite List.filter_app. simpl. rewrite Hx.
    now rewrite (Hnone pre Hpre), (Hnone post Hpost).
Qed.

Lemma root_no_subject (t : Spacy.Token) :
  is_root t = true -> is_subject t = false.
Proof.
  unfold is_root, is_subject. intros H. apply bool_decide_eq_true in H.
  rewrite H. vm_compute. reflexivity.
Qed.

(** X13: [is_likely_natural_sentence] answers yes exactly when one
    token, and no other, has the relation ROOT, that token is a VERB or
    an AUX, and some other token is a subject (nsubj, nsubjpass or
    csubj).  So a yes needs two tokens at least, and the empty document
    gets a no. *)
Theorem natural_sentence_iff (doc : list Spacy.Token) :
  (is_likely_natural_sentence doc = true <->
   exists (pre : list Spacy.Token) (root : Spacy.Token)
          (post : list Spacy.Token),
     doc = pre ++ root :: post /\
     Spacy.dep_ root = py "ROOT" /\
     Forall (fun t => Spacy.dep_ t <> py "ROOT") (pre ++ post) /\
     (Spacy.pos_ root = py "VERB" \/ Spacy.pos_ root = py "AUX") /\
     Exists (fun t => Spacy.dep_ t = py "nsubj" \/
                      Spacy.dep_ t = py "nsubjpass" \/
                      Spacy.dep_ t = py "csubj") (pre ++ post)) /\
  (is_likely_natural_sentence doc = true -> (2 <= length doc)%nat).
Proof.
  assert (Hverbal : forall t, is_verbal t = true <->
            Spacy.pos_ t = py "VERB" \/ Spacy.pos_ t = py "AUX").
  { intros t. unfold is_verbal, str_in. cbn [existsb].
    rewrite orb_false_r, !orb_true_iff, !bool_decide_eq_true. tauto. }
  assert (Hsubj : forall t, is_subject t = true <->
            Spacy.dep_ t = py "nsubj" \/ Spacy.dep_ t = py "nsubjpass" \/
            Spacy.dep_ t = py "csubj").
  { intros t. unfold is_subject, str_in. cbn [existsb].
    rewrite orb_false_r, !orb_true_iff, !bool_decide_eq_true. tauto. }
  assert (Hiff : is_likely_natural_sentence doc = true <->
    exists pre root post,
      doc = pre ++ root :: post /\
      Spacy.dep_ root = py "ROOT" /\
      Forall (fun t => Spacy.dep_ t <> py "ROOT") (pre ++ post) /\
      (Spacy.pos_ root = py "VERB" \/ Spacy.pos_ root = py "AUX") /\
      Exists (fun t => Spacy.dep_ t = py "nsubj" \/
                       Spacy.dep_ t = py "nsubjpass" \/
                       Spacy.dep_ t = py "csubj") (pre ++ post)).
  { rewrite is_likely_natural_sentence_eq. split.
    - destruct (List.filter is_root doc) as [|root [|r2 roots]] eqn:Ef;
        try discriminate.
      intros H. apply andb_prop in H as [Hv Hs].
      apply filter_singleton in Ef as (pre & post & -> & Hroot & Hrest).
      exists pre, root, post. split; [reflexivity|].
      split; [now apply bool_decide_eq_true in Hroot|]. split.
      { eapply Forall_impl; [exact Hrest|]. intros t Ht.
        now apply bool_decide_eq_false in Ht. }
      split; [now apply Hverbal|].
      apply existsb_exists in Hs as (t & Hin & Ht).
      apply Exists_exists. exists t. split; [|now apply Hsubj].
      apply list_elem_of_In. apply in_app_iff.
      apply in_app_iff in Hin as [Hin|[<-|Hin]]; auto.
      rewrite (root_no_subject root Hroot) in Ht. discriminate.
    - intros (pre & root & post & -> & Hroot & Hrest & Hv & Hs).
      assert (Ef : List.filter is_root (pre ++ root :: post) = [root]).
      { apply filter_singleton. exists pre, post. split; [reflexivity|].
        split; [now apply bool_decide_eq_true|].
        eapply Forall_impl; [exact Hrest|]. intros t Ht.
        now apply bool_decide_eq_false. }
      rewrite Ef. apply andb_true_intro. split; [now apply Hverbal|].
      apply Exists_exists in Hs as (t & Hin & Ht).
      apply existsb_exists. exists t. split; [|now apply Hsubj].
      apply list_elem_of_In in Hin.
      apply in_app_iff in Hin as [Hin|Hin]; apply in_app_iff; simpl; auto. }
  split; [exact Hiff|].
  intros H. apply Hiff in H as (pre & root & post & -> & _ & _ & _ & Hs).
  apply Exists_exists in Hs as (t & Hin & _).
  apply list_elem_of_In in Hin.
  rewrite length_app. simpl.
  apply in_app_iff in Hin as [Hin|Hin].
  - destruct pre; [contradiction|]. simpl. lia.
  - destruct post; [contradiction|]. simpl. lia.
Qed.

Lemma filter_perm {A : Type} (f : A -> bool) (l l' : list A) :
  Permutation l l' -> Permutation (List.filter f l) (List.filter f l').
Proof.
  induction 1 as [|x l l' _ IH|x y l|l l' l'' _ IH1 _ IH2]; simpl.
  - constructor.
  - destruct (f x); [now constructor | exact IH].
  - destruct (f x), (f y); try reflexivity. apply perm_swap.
  - now transitivity (List.filter f l').
Qed.

Lemma existsb_perm {A : Type} (f : A -> bool) (l l' : list A) :
  Permutation l l' -> existsb f l = existsb f l'.
Proof.
  intros Hp. apply eq_true_iff_eq. rewrite !existsb_exists.
  split; intros (x & Hin & Hx); exists x; split; auto.
  - now apply (Permutation_in _ Hp).
  - now apply (Permutation_in _ (Permutation_sym Hp)).
Qed.

(** X14: the check does not look at the order of the tokens, nor at
    their texts, lemmas or heads: two documents whose tokens have, in
    any order, the same parts of speech and relations get the same
    answer. *)
Theorem natural_sentence_order_blind (doc doc' : list Spacy.Token) :
  Permutation
    (List.map (fun t => (Spacy.pos_ t, Spacy.dep_ t)) doc)
    (List.map (fun t => (Spacy.pos_ t, Spacy.dep_ t)) doc') ->
  is_likely_natural_sentence doc = is_likely_natural_sentence doc'.
Proof.
  intros Hp. rewrite !is_likely_natural_sentence_eq.
  set (tag := fun t : Spacy.Token => (Spacy.pos_ t, Spacy.dep_ t)) in *.
  set (root_tag := fun pd : str * str => bool_decide (snd pd = py "ROOT")).
  set (verbal_tag := fun pd : str * str => str_in (fst pd) [py "VERB"; py "AUX"]).
  set (subject_tag := fun pd : str * str =>
         str_in (snd pd) [py "nsubj"; py "nsubjpass"; py "csubj"]).
  assert (Hshape : forall d : list Spacy.Token,
            match List.filter is_root d with
            | [root] => is_verbal root && existsb is_subject d
            | _ => false
            end =
            match List.filter root_tag (List.map tag d) with
            | [pd] => verbal_tag pd && existsb subject_tag (List.map tag d)
            | _ => false
            end).
  { intros d.
    assert (Hf : List.filter root_tag (List.map tag d) =
                 List.map tag (List.filter is_root d)).
    { induction d as [|t d IH]; simpl; [reflexivity|].
      unfold root_tag at 1, is_root at 1, tag at 1. simpl.
      destruct (bool_decide (Spacy.dep_ t = py "ROOT")); simpl;
        now rewrite IH. }
    assert (He : existsb subject_tag (List.map tag d) = existsb is_subject d).
    { clear Hf. induction d as [|t d IH]; [reflexivity|].
      cbn [List.map existsb]. rewrite IH. reflexivity. }
    rewrite Hf, He.
    now destruct (List.filter is_root d) as [|root [|r2 roots]]. }
  rewrite !Hshape.
  pose proof (filter_perm root_tag _ _ Hp) as Hroots.
  rewrite (existsb_perm subject_tag _ _ Hp).
  destruct (List.filter root_tag (List.map tag doc)) as [|pd [|pd2 pds]] eqn:E.
  - apply Permutation_nil in Hroots. now rewrite Hroots.
  - apply Permutation_length_1_inv in Hroots. now rewrite Hroots.
  - apply Permutation_length in Hroots.
    destruct (List.filter root_tag (List.map tag doc')) as [|q [|q2 qs]];
      simpl in Hroots; first [reflexivity | lia].
Qed.

(** *** From the heap of nodes to a tree *)



End DepTheory.

(** ** The further theorems at work on concrete inputs *)

(** X1 on "ab  12". *)
Lemma whitespace_separates_witness :
  @tokenize ascii_table (py "ab  12") =
    @tokenize ascii_table (py "ab") ++ @tokenize ascii_table (py "12").
Proof.
  apply (proj1 (@whitespace_separates ascii_table (py "ab") (py "  ")
                  (py "12") eq_refl)).
  discriminate.
Defined.

(** X2 on "a+b". *)
Lemma symbol_separates_witness :
  @tokenize ascii_table (py "a+b") =
    @tokenize ascii_table (py "a") ++ [mkTok SYMBOL (py "+")]
    ++ @tokenize ascii_table (py "b").
Proof.
  apply (@symbol_separates ascii_table (py "a") 43 (py "b")). reflexivity.
Defined.

(** X5 on the number of "x1". *)
Lemma tokens_classified_witness :
  @is_number_text ascii_table (py "1") = true.
Proof.
  apply (proj2 (@tokens_classified ascii_table (py "x1"))
           (mkTok NUMBER (py "1"))).
  vm_compute. auto.
Defined.

(** X7 on "The Dog". *)
Lemma ascii_case_blind_witness :
  @tokenize ascii_table (ascii_lower (py "The Dog")) =
    @tokenize ascii_table (py "The Dog").
Proof.
  apply (proj1 (@ascii_case_blind ascii_table ascii_table_faithful
                  (py "The Dog") ltac:(ascii_text))).
Defined.


(** X11 on the sample document. *)
Lemma build_dep_tree_result_witness :
  Dep.build_dep_tree Dep.sample_doc =
    Dep.Returns
      ([Dep.mkDepNode (py "The") (py "the") (py "DET") (py "det") [];
        Dep.mkDepNode (py "man") (py "man") (py "NOUN") (py "nsubj") [0%nat];
        Dep.mkDepNode (py "saw") (py "see") (py "VERB") (py "ROOT") [1%nat]],
       Some 2%nat).
Proof.
  apply (DepTheory.build_dep_tree_result Dep.sample_doc).
  repeat constructor; simpl; lia.
Defined.

(** X12 on the sample document. *)
Lemma build_dep_tree_shape_witness :
  exists t : Spacy.Token,
    Dep.sample_doc !! 2%nat = Some t /\ Spacy.head_i t = Spacy.i t.
Proof.
  apply (proj2 (proj2 (proj2
    (DepTheory.build_dep_tree_shape Dep.sample_doc _ _ eq_refl))) 2%nat).
  reflexivity.
Defined.

(** X13 on the sample document. *)
Lemma natural_sentence_iff_witness : (2 <= length Dep.sample_doc)%nat.
Proof.
  apply (proj2 (DepTheory.natural_sentence_iff Dep.sample_doc)).
  reflexivity.
Defined.

(** X14 on the sample document, read backwards. *)
Lemma natural_sentence_order_blind_witness :
  Dep.is_likely_natural_sentence Dep.sample_doc =
    Dep.is_likely_natural_sentence (rev Dep.sample_doc).
Proof.
  apply (DepTheory.natural_sentence_order_blind Dep.sample_doc
           (rev Dep.sample_doc)).
  rewrite List.map_rev. apply Permutation_rev.
Defined.

